(** * GwangjuARDonMap: district keyword pipeline

    A shallow embedding of the keyword pipeline of the Gwangju architecture
    map scripts ([architect_buildings.py], [main2.py], [main.py]) and the
    properties proved about it.

    Conventions of the embedding:
    - a Python [str] is the list of its Unicode code points;
    - Python exceptions are values of [Py.result];
    - Python floats are idealised as real numbers: rounding is not modelled,
      but the run-time errors of division and [math.log] are;
    - the iteration order of a Python [set] is unspecified, so the ranking
      loop is given the order it iterates in, and [Py.set_union_order]
      says which orders a run may see;
    - the Unicode character database and the morphological analyzer are
      outside the repository and are parameters of the development. *)

From Stdlib Require Import Reals Lra Lia ZArith NArith List String Ascii Bool.
From Stdlib Require Import Sorting.Sorted Sorting.Permutation.
From stdpp Require Import base decidable option list.

Set Default Proof Using "Type".

(* ===================================================================== *)
(** * Part I: definitions                                                 *)
(* ===================================================================== *)

(** ** The Python run time the scripts rely on *)

Module Py.

Definition char := N.
Definition str := list char.

(** Decoding of a UTF-8 literal into code points, so that the Korean
    literals of the scripts can be written as they are in the source. *)
Fixpoint utf8_go (acc : N) (need : nat) (bs : list N) : str :=
  match bs with
  | [] => []
  | b :: bs' =>
    match need with
    | O =>
      if (b <? 128)%N then b :: utf8_go 0 0 bs'
      else if (b <? 224)%N then utf8_go (b - 192) 1 bs'
      else if (b <? 240)%N then utf8_go (b - 224) 2 bs'
      else utf8_go (b - 240) 3 bs'
    | S O => (acc * 64 + (b - 128))%N :: utf8_go 0 0 bs'
    | S k => utf8_go (acc * 64 + (b - 128))%N k bs'
    end
  end.

Definition u (s : string) : str :=
  utf8_go 0 0 (List.map N_of_ascii (list_ascii_of_string s)).

(** Exceptions and results. *)
Inductive exn := IndexError | KeyError | ValueError | ZeroDivisionError.

Inductive result (A : Type) :=
| Ok (a : A)
| Raise (e : exn).
Arguments Ok {A} a.
Arguments Raise {A} e.

Definition bind {A B} (r : result A) (f : A -> result B) : result B :=
  match r with
  | Ok a => f a
  | Raise e => Raise e
  end.

(** Values that reach the string functions of the scripts: a [str],
    [None], a float NaN (pandas' missing value) or any other object,
    given by the text [str()] renders it as. *)
Inductive value :=
| VStr (s : str)
| VNone
| VNaN
| VObj (text : str).

Definition str_of (v : value) : str :=
  match v with
  | VStr s => s
  | VNone => u "None"
  | VNaN => u "nan"
  | VObj text => text
  end.

Definition isinstance_str (v : value) : bool :=
  match v with VStr _ => true | _ => false end.

(** *** Strings *)

Definition char_eqb (a b : char) : bool := N.eqb a b.

Fixpoint startswith (p s : str) : bool :=
  match p, s with
  | [], _ => true
  | _ :: _, [] => false
  | a :: p', b :: s' => char_eqb a b && startswith p' s'
  end.

(** [d in s] *)
Fixpoint contains (d s : str) : bool :=
  startswith d s ||
  match s with
  | [] => false
  | _ :: s' => contains d s'
  end.

Definition str_eqb (a b : str) : bool :=
  bool_decide (a = b).

(** [s.replace(old, new)] for a non-empty [old]: leftmost occurrences,
    not overlapping. [skip] counts the code points of the occurrence
    that is being replaced and are still to be dropped. *)
Fixpoint replace_go (old new s : str) (skip : nat) : str :=
  match s with
  | [] => []
  | c :: s' =>
    match skip with
    | S j => replace_go old new s' j
    | O =>
      if startswith old s
      then new ++ replace_go old new s' (length old - 1)
      else c :: replace_go old new s' 0
    end
  end.

Definition replace (old new s : str) : str := replace_go old new s 0.

(** *** The Unicode database

    [\s] and [str.strip] use [Py_UNICODE_ISSPACE], [\d] the decimal
    digits and [\w] the alphanumerics and the underscore. The tables
    are the interpreter's; the development fixes them on ASCII. *)

Definition ascii_space (c : char) : bool :=
  ((9 <=? c) && (c <=? 13) || (28 <=? c) && (c <=? 32))%N.

Definition ascii_decimal (c : char) : bool :=
  ((48 <=? c) && (c <=? 57))%N.

Definition ascii_word (c : char) : bool :=
  (ascii_decimal c || (65 <=? c) && (c <=? 90) || (c =? 95)
   || (97 <=? c) && (c <=? 122))%N.

Class UnicodeDB := {
  is_space : char -> bool;
  is_decimal : char -> bool;
  is_word : char -> bool;
  is_space_ascii : forall c, (c < 128)%N -> is_space c = ascii_space c;
  is_decimal_ascii : forall c, (c < 128)%N -> is_decimal c = ascii_decimal c;
  is_word_ascii : forall c, (c < 128)%N -> is_word c = ascii_word c
}.

(** The database on Basic Latin, Latin-1 Supplement and the Hangul
    blocks, with the whole of the white space table; other code points
    are left unclassified. It is used to run the functions on Korean
    text. *)
Definition in_range (lo hi c : N) : bool := ((lo <=? c) && (c <=? hi))%N.

Definition hangul_space (c : char) : bool :=
  ascii_space c
  || (c =? 133)%N || (c =? 160)%N || (c =? 5760)%N
  || in_range 8192 8202 c || (c =? 8232)%N || (c =? 8233)%N
  || (c =? 8239)%N || (c =? 8287)%N || (c =? 12288)%N.

Definition hangul_word (c : char) : bool :=
  ascii_word c
  || (c =? 170)%N || (c =? 178)%N || (c =? 179)%N || (c =? 181)%N
  || (c =? 185)%N || (c =? 186)%N || in_range 188 190 c
  || in_range 192 214 c || in_range 216 246 c || in_range 248 255 c
  || in_range 4352 4607 c || in_range 12593 12686 c
  || in_range 44032 55203 c.

#[refine] Instance hangul_db : UnicodeDB := {
  is_space := hangul_space;
  is_decimal := ascii_decimal;
  is_word := hangul_word
}.
Proof.
  - intros c Hc. unfold hangul_space, in_range.
    repeat match goal with
    | |- context [N.eqb c ?k] =>
        replace (N.eqb c k) with false by (symmetry; apply N.eqb_neq; lia)
    | |- context [N.leb ?k c] =>
        replace (N.leb k c) with false by (symmetry; apply N.leb_gt; lia)
    end.
    rewrite !orb_false_r. reflexivity.
  - reflexivity.
  - intros c Hc. unfold hangul_word, in_range.
    repeat match goal with
    | |- context [N.eqb c ?k] =>
        replace (N.eqb c k) with false by (symmetry; apply N.eqb_neq; lia)
    | |- context [N.leb ?k c] =>
        replace (N.leb k c) with false by (symmetry; apply N.leb_gt; lia)
    end.
    simpl. rewrite !orb_false_r. reflexivity.
Defined.

Section WithDB.
Context {db : UnicodeDB}.

Fixpoint dropwhile (p : char -> bool) (s : str) : str :=
  match s with
  | [] => []
  | c :: s' => if p c then dropwhile p s' else s
  end.

Definition lstrip (s : str) : str := dropwhile is_space s.
Definition rstrip (s : str) : str := rev (dropwhile is_space (rev s)).
(** [s.strip()] *)
Definition strip (s : str) : str := rstrip (lstrip s).

(** *** Regular expressions

    The fragment of [re] the scripts use, matched by backtracking as
    [re] does: alternatives in order, repetitions greedy. *)
Inductive regex :=
| Eps
| Lit (c : char)
| Cls (p : char -> bool)
| Seq (r1 r2 : regex)
| Alt (r1 r2 : regex)
| Opt (r : regex)
| Rep (p : char -> bool) (lo : nat) (hi : option nat)
| WordB.

(** A position: the code point before it, the text from it on and how
    many code points the match has consumed so far. *)
Definition cont := option char -> str -> nat -> option nat.

Definition is_word_at (c : option char) : bool :=
  match c with
  | Some c => is_word c
  | None => false
  end.

(** [\b] *)
Definition at_boundary (prev : option char) (s : str) : bool :=
  negb (eqb (is_word_at prev) (is_word_at (head s))).

Definition dec_hi (hi : option nat) : option nat :=
  match hi with
  | Some h => Some (pred h)
  | None => None
  end.

(** Greedy repetition of a class, between [lo] and [hi] times. *)
Fixpoint rep (p : char -> bool) (lo : nat) (hi : option nat)
    (prev : option char) (s : str) (n : nat) (k : cont) : option nat :=
  let stop := match lo with O => k prev s n | S _ => None end in
  match s with
  | [] => stop
  | c :: s' =>
    match hi with
    | Some O => stop
    | _ =>
      if p c then
        match rep p (pred lo) (dec_hi hi) (Some c) s' (S n) k with
        | Some r => Some r
        | None => stop
        end
      else stop
    end
  end.

Fixpoint m (r : regex) (prev : option char) (s : str) (n : nat)
    (k : cont) : option nat :=
  match r with
  | Eps => k prev s n
  | Lit c =>
    match s with
    | c' :: s' => if char_eqb c c' then k (Some c') s' (S n) else None
    | [] => None
    end
  | Cls p =>
    match s with
    | c' :: s' => if p c' then k (Some c') s' (S n) else None
    | [] => None
    end
  | Seq r1 r2 => m r1 prev s n (fun prev' s' n' => m r2 prev' s' n' k)
  | Alt r1 r2 =>
    match m r1 prev s n k with
    | Some x => Some x
    | None => m r2 prev s n k
    end
  | Opt r1 =>
    match m r1 prev s n k with
    | Some x => Some x
    | None => k prev s n
    end
  | Rep p lo hi => rep p lo hi prev s n k
  | WordB => if at_boundary prev s then k prev s n else None
  end.

(** Length of the match of [r] that starts at the position. *)
Definition match_at (r : regex) (prev : option char) (s : str)
    : option nat :=
  m r prev s 0 (fun _ _ n => Some n).

(** [r.sub(repl, s)] for a pattern that matches no empty string (all
    the patterns of the scripts consume a code point): leftmost
    matches, not overlapping. [skip] as in [replace_go]. *)
Fixpoint sub_go (r : regex) (repl : str) (prev : option char) (s : str)
    (skip : nat) : str :=
  match s with
  | [] => []
  | c :: s' =>
    match skip with
    | S j => sub_go r repl (Some c) s' j
    | O =>
      match match_at r prev s with
      | Some (S j) => repl ++ sub_go r repl (Some c) s' j
      | _ => c :: sub_go r repl (Some c) s' 0
      end
    end
  end.

Definition sub (r : regex) (repl : str) (s : str) : str :=
  sub_go r repl None s 0.

(** [re.search(r, s)]: start and length of the leftmost match. *)
Fixpoint search_go (r : regex) (prev : option char) (s : str) (i : nat)
    : option (nat * nat) :=
  match match_at r prev s with
  | Some n => Some (i, n)
  | None =>
    match s with
    | [] => None
    | c :: s' => search_go r (Some c) s' (S i)
    end
  end.

Definition search (r : regex) (s : str) : option (nat * nat) :=
  search_go r None s 0.

(** The text of a match. *)
Definition group (s : str) (mt : nat * nat) : str :=
  take (snd mt) (drop (fst mt) s).

(** A literal word as a pattern. *)
Fixpoint lit (w : str) : regex :=
  match w with
  | [] => Eps
  | c :: w' => Seq (Lit c) (lit w')
  end.

End WithDB.

(** *** Lists *)

(** [l[0]] *)
Definition index0 {A} (l : list A) : result A :=
  match l with
  | [] => Raise IndexError
  | x :: _ => Ok x
  end.

(** [l[:n]], also for a negative [n], which counts from the end. *)
Definition slice_to {A} (l : list A) (n : Z) : list A :=
  if (0 <=? n)%Z then take (Z.to_nat n) l
  else take (length l - Z.to_nat (- n)) l.

(** [l.sort(key=..., reverse=True)] and [sorted(..., reverse=True)]: a
    stable sort, so an element goes in front of the first one whose key
    is not above its own. [leb y x] says that the key of [y] is at most
    the key of [x]. *)
Fixpoint insert_desc {A} (leb : A -> A -> bool) (x : A) (l : list A)
    : list A :=
  match l with
  | [] => [x]
  | y :: l' => if leb y x then x :: l else y :: insert_desc leb x l'
  end.

Fixpoint sort_desc {A} (leb : A -> A -> bool) (l : list A) : list A :=
  match l with
  | [] => []
  | x :: l' => insert_desc leb x (sort_desc leb l')
  end.

(** [b] may follow [a] in a list that descends by [leb]. *)
Definition desc {A} (leb : A -> A -> bool) (a b : A) : Prop :=
  leb b a = true.

(** An iteration order of the set [set(a) | set(b)]. *)
Definition set_union_order (a b ws : list str) : Prop :=
  NoDup ws /\ forall w, In w ws <-> In w a \/ In w b.

(** *** [collections.Counter]

    A dict keeps its keys in the order they were first inserted, and
    [most_common] depends on it, so a counter is the list of its items
    in that order. *)
Definition Counter := list (str * nat).

Definition keys (c : Counter) : list str := List.map fst c.
Definition values (c : Counter) : list nat := List.map snd c.
Definition sum (l : list nat) : nat := fold_right Nat.add 0%nat l.

(** [c.get(w, 0)] *)
Fixpoint get (c : Counter) (w : str) : nat :=
  match c with
  | [] => 0%nat
  | (k, v) :: c' => if str_eqb k w then v else get c' w
  end.

(** [c[w] += n] *)
Fixpoint incr (c : Counter) (w : str) (n : nat) : Counter :=
  match c with
  | [] => [(w, n)]
  | (k, v) :: c' =>
    if str_eqb k w then (k, (v + n)%nat) :: c' else (k, v) :: incr c' w n
  end.

(** [Counter(toks)] *)
Definition count (toks : list str) : Counter :=
  fold_left (fun c w => incr c w 1) toks [].

Definition keep_positive (c : Counter) : Counter :=
  List.filter (fun kv => (0 <? snd kv)%nat) c.

(** [self += other] *)
Definition iadd (self other : Counter) : Counter :=
  keep_positive (fold_left (fun c kv => incr c (fst kv) (snd kv)) other self).

(** [c.most_common(n)], that is [heapq.nlargest(n, c.items(), key=count)]:
    nothing for [n <= 0], else the first [n] items of the stable
    descending sort. *)
Definition most_common (c : Counter) (n : Z) : list (str * nat) :=
  if (n <=? 0)%Z then []
  else take (Z.to_nat n) (sort_desc (fun y x => (snd y <=? snd x)%nat) c).

(** *** [dict] with [str] keys, in insertion order *)
Definition dict (V : Type) := list (str * V).

(** [d[k]] *)
Fixpoint dict_get {V} (d : dict V) (k : str) : result V :=
  match d with
  | [] => Raise KeyError
  | (k', v) :: d' => if str_eqb k' k then Ok v else dict_get d' k
  end.

(** [d[k] = v] *)
Fixpoint dict_set {V} (d : dict V) (k : str) (v : V) : dict V :=
  match d with
  | [] => [(k, v)]
  | (k', v') :: d' =>
    if str_eqb k' k then (k', v) :: d' else (k', v') :: dict_set d' k v
  end.

(** *** Floats, idealised as reals *)

Definition cnt (n : nat) : R := IZR (Z.of_nat n).

(** [a / b] *)
Definition fdiv (a b : R) : result R :=
  if Req_dec_T b 0 then Raise ZeroDivisionError else Ok (a / b)%R.

(** [math.log(x)] *)
Definition math_log (x : R) : result R :=
  if Rlt_dec 0 x then Ok (ln x) else Raise ValueError.

Definition Rleb (a b : R) : bool := if Rle_dec a b then true else false.

End Py.

#[global] Instance result_bind : MBind Py.result :=
  fun A B f r => Py.bind r f.
#[global] Instance result_ret : MRet Py.result := fun A a => Py.Ok a.

Import Py.

(** ** architect_buildings.py *)

Module architect_buildings.

Definition DISTRICTS : list str :=
  Eval vm_compute in
    List.map u ["동구"; "서구"; "남구"; "북구"; "광산구"]%string.

Definition ETC : str := Eval vm_compute in u "기타".

Definition DISTRICTS_WITH_ETC : list str := DISTRICTS ++ [ETC].

Definition STOPWORDS : list str :=
  Eval vm_compute in
    List.map u [
      "광주"; "광주광역시"; "대한민국"; "국가"; "등록"; "등록문화재";
      "국가등록문화재";
      "유형문화재"; "문화재자료"; "기념물"; "명승"; "사적"; "지정"; "승격";
      "조선시대"; "일제강점기"; "근대"; "현대"; "개관"; "준공"; "완공";
      "증축"; "중건";
      "복원"; "보수"; "이전"; "신축"; "리모델링";
      "건물"; "건축"; "건축물"; "시설"; "공간"; "장소"; "지역"; "현재";
      "당시";
      "규모"; "구성"; "가치"; "특징"; "활용"; "사용"; "부문";
      "있다"; "이다"; "한다"; "있는"; "대한"; "위해"; "관련";
      "동구"; "서구"; "남구"; "북구"; "광산구"
    ]%string.

Definition SPACE : str := [32%N].
Definition MIDDLE_DOT : char := 183%N.
Definition FULL_STOP : char := 46%N.
Definition COMMA : char := 44%N.

Section WithDB.
Context {db : UnicodeDB}.

(** [(동구|서구|남구|북구|광산구)] *)
Definition RE_DISTRICT : regex :=
  Alt (lit (u "동구")) (Alt (lit (u "서구")) (Alt (lit (u "남구"))
    (Alt (lit (u "북구")) (lit (u "광산구"))))).

Definition extract_district (address : value) : str :=
  match search RE_DISTRICT (str_of address) with
  | Some mt => group (str_of address) mt
  | None => ETC
  end.

(** [제\s*\d+\s*(?:호|회)] *)
Definition RE_ORD : regex :=
  Seq (lit (u "제")) (Seq (Rep is_space 0 None) (Seq (Rep is_decimal 1 None)
    (Seq (Rep is_space 0 None) (Alt (lit (u "호")) (lit (u "회")))))).

(** [\d{3,4}\s*년] *)
Definition RE_YEAR : regex :=
  Seq (Rep is_decimal 3 (Some 4%nat)) (Seq (Rep is_space 0 None)
    (lit (u "년"))).

(** [\b\d+(?:[.]\d+)?\b] *)
Definition RE_NUM : regex :=
  Seq WordB (Seq (Rep is_decimal 1 None)
    (Seq (Opt (Seq (Cls (char_eqb FULL_STOP)) (Rep is_decimal 1 None)))
      WordB)).

(** [[^\w\s·]] *)
Definition punct (c : char) : bool :=
  negb (is_word c || is_space c || char_eqb c MIDDLE_DOT).
Definition RE_PUNCT : regex := Cls punct.

(** [\s+] *)
Definition RE_MULTI : regex := Rep is_space 1 None.

Definition clean_text_for_kw (text : value) : str :=
  match text with
  | VStr text =>
    let t := replace (u "5·18") (u "오월민주화") text in
    let t := sub RE_ORD SPACE t in
    let t := sub RE_YEAR SPACE t in
    let t := sub RE_NUM SPACE t in
    let t := sub RE_PUNCT SPACE t in
    let t := strip (sub RE_MULTI SPACE t) in
    t
  | _ => []
  end.

(** A morpheme of the analyzer: form, tag, start and length. *)
Definition morph := (str * str * nat * nat)%type.
Definition form (t : morph) : str := fst (fst (fst t)).
Definition pos (t : morph) : str := snd (fst (fst t)).

Definition NNG : str := Eval vm_compute in u "NNG".
Definition NNP : str := Eval vm_compute in u "NNP".

(** The loop of [nouns_only] over the morphemes of an analysis. *)
Fixpoint nouns_loop (ts : list morph) (tokens : list str) : list str :=
  match ts with
  | [] => tokens
  | t :: ts' =>
    if str_eqb (pos t) NNG || str_eqb (pos t) NNP then
      if (2 <=? length (form t))%nat
         && negb (bool_decide (form t ∈ STOPWORDS))
      then nouns_loop ts' (tokens ++ [form t])
      else nouns_loop ts' tokens
    else nouns_loop ts' tokens
  end.

Section WithAnalyzer.
(** [kiwi.analyze]: the analyses of a text, each a list of
    morphemes with a score. *)
Variable analyze : str -> list (list morph * R).

Definition nouns_only (text : str) : result (list str) :=
  match text with
  | [] => Ok []
  | _ =>
    let analyzed := analyze text in
    match analyzed with
    | [] => Ok []
    | _ =>
      first ← index0 analyzed;
      Ok (nouns_loop (fst first) [])
    end
  end.
End WithAnalyzer.

(** *** The ranker *)

(** [(w, score, c1, c0)] *)
Definition entry := (str * R * nat * nat)%type.
Definition e_kw (e : entry) : str := fst (fst (fst e)).
Definition e_score (e : entry) : R := snd (fst (fst e)).
Definition e_c1 (e : entry) : nat := snd (fst e).
Definition e_c0 (e : entry) : nat := snd e.

Definition EPS : R := (1 / 1000000000000)%R.

(** The body of the loop for a token that passes the gate. *)
Definition score (c1 c0 n1 n0 V : nat) (alpha : R) : result R :=
  p1 ← fdiv (cnt c1 + alpha) (cnt n1 + alpha * cnt V);
  p0 ← fdiv (cnt c0 + alpha) (cnt n0 + alpha * cnt V);
  o1 ← fdiv p1 (1 - p1 + EPS);
  l1 ← math_log o1;
  o0 ← fdiv p0 (1 - p0 + EPS);
  l0 ← math_log o0;
  Ok (l1 - l0)%R.

(** [for w in vocab: ...], with [vocab] iterated in the order [ws]. *)
Fixpoint rank_loop (ws : list str) (one rest : Counter) (alpha : R)
    (min_count : Z) (n1 n0 V : nat) (out : list entry)
    : result (list entry) :=
  match ws with
  | [] => Ok out
  | w :: ws' =>
    let c1 := get one w in
    let c0 := get rest w in
    if (Z.of_nat c1 <? min_count)%Z
    then rank_loop ws' one rest alpha min_count n1 n0 V out
    else
      s ← score c1 c0 n1 n0 V alpha;
      rank_loop ws' one rest alpha min_count n1 n0 V
        (out ++ [(w, s, c1, c0)])
  end.

Definition by_score (y x : entry) : bool := Rleb (e_score y) (e_score x).

(** [log_odds_dirichlet], its set [vocab] iterated in the order [ws]. *)
Definition log_odds_dirichlet_on (ws : list str) (one rest : Counter)
    (alpha : R) (topn : Z) (min_count : Z) : result (list entry) :=
  let n1 := sum (values one) in
  let n0 := sum (values rest) in
  let V := match length ws with O => 1%nat | S _ => length ws end in
  out ← rank_loop ws one rest alpha min_count n1 n0 V [];
  Ok (slice_to (sort_desc by_score out) topn).

(** The runs of [log_odds_dirichlet(one, rest, alpha, topn, min_count)]:
    one for each iteration order of the vocabulary. *)
Definition log_odds_dirichlet (one rest : Counter) (alpha : R)
    (topn : Z) (min_count : Z) (res : result (list entry)) : Prop :=
  exists ws, set_union_order (keys one) (keys rest) ws
    /\ log_odds_dirichlet_on ws one rest alpha topn min_count = res.

(** *** The payload *)

(** The columns of the data frame that [build_district_keywords]
    reads; [DC_CN] may be missing from the frame. *)
Record Row := { district : value; DC_CN : value }.
Record DataFrame := { has_DC_CN : bool; rows : list Row }.

(** [{"kw": ..., "cnt": ..., "score": ...}] *)
Record item := { kw : str; cnt_ : nat; score_ : R }.

(** [.fillna("")] on a cell *)
Definition fillna (v : value) : value :=
  match v with
  | VNone | VNaN => VStr []
  | _ => v
  end.

(** [v == s] on a cell *)
Definition cell_is (v : value) (s : str) : bool :=
  match v with
  | VStr t => str_eqb t s
  | _ => false
  end.

(** [tmp]: the district and the cleaned [DC_CN] of each row. *)
Definition tmp_of (df : DataFrame) : list (value * str) :=
  List.map
    (fun r =>
       (district r,
        clean_text_for_kw
          (fillna (if has_DC_CN df then DC_CN r else VStr []))))
    (rows df).

(** [tmp[tmp["district"] == dist]["DC_CN"].tolist()] *)
Definition texts_of (tmp : list (value * str)) (dist : str) : list str :=
  List.map snd (List.filter (fun r => cell_is (fst r) dist) tmp).

Definition to_item (e : entry) : item :=
  {| kw := e_kw e; cnt_ := e_c1 e; score_ := e_score e |}.

Definition to_item_etc (kc : str * nat) : item :=
  {| kw := fst kc; cnt_ := snd kc; score_ := 0%R |}.

Section Builder.
Variable analyze : str -> list (list morph * R).
(** The order in which a run iterates [vocab] for two counters. *)
Variable vocab_order : Counter -> Counter -> list str.

(** [for s in ...: toks.extend(nouns_only(s))] *)
Fixpoint extend_nouns (ss : list str) (toks : list str)
    : result (list str) :=
  match ss with
  | [] => Ok toks
  | s :: ss' =>
    ns ← nouns_only analyze s;
    extend_nouns ss' (toks ++ ns)
  end.

Fixpoint build_counters (ds : list str) (tmp : list (value * str))
    (counters : dict Counter) : result (dict Counter) :=
  match ds with
  | [] => Ok counters
  | dist :: ds' =>
    toks ← extend_nouns (texts_of tmp dist) [];
    build_counters ds' tmp (dict_set counters dist (count toks))
  end.

(** [for other in DISTRICTS: if other != dist: rest += counters[other]] *)
Fixpoint pool_rest (others : list str) (dist : str)
    (counters : dict Counter) (rest : Counter) : result Counter :=
  match others with
  | [] => Ok rest
  | other :: others' =>
    if negb (str_eqb other dist) then
      c ← dict_get counters other;
      pool_rest others' dist counters (iadd rest c)
    else pool_rest others' dist counters rest
  end.

Fixpoint rank_all (ds : list str) (counters : dict Counter)
    (topn min_count : Z) (res : dict (list item))
    : result (dict (list item)) :=
  match ds with
  | [] => Ok res
  | dist :: ds' =>
    one ← dict_get counters dist;
    rest ← pool_rest DISTRICTS dist counters [];
    ranked ← log_odds_dirichlet_on (vocab_order one rest) one rest
               (1 / 100)%R topn min_count;
    rank_all ds' counters topn min_count
      (dict_set res dist (List.map to_item ranked))
  end.

Definition build_district_keywords (df : DataFrame)
    (topn min_count : Z) : result (dict (list item)) :=
  let tmp := tmp_of df in
  counters ← build_counters DISTRICTS tmp [];
  res ← rank_all DISTRICTS counters topn min_count
          (List.map (fun d => (d, [])) DISTRICTS_WITH_ETC);
  etc_toks ← extend_nouns (texts_of tmp ETC) [];
  let etc_counter := count etc_toks in
  Ok (dict_set res ETC
        (List.map to_item_etc (most_common etc_counter topn))).
End Builder.

End WithDB.

End architect_buildings.

(** ** main.py *)

Module main_py.
Section WithDB.
Context {db : UnicodeDB}.

Definition extract_district (address : value) : str :=
  match search architect_buildings.RE_DISTRICT (str_of address) with
  | Some mt => group (str_of address) mt
  | None => architect_buildings.ETC
  end.
End WithDB.
End main_py.

(** ** main2.py *)

Module main2.
Import architect_buildings.

Definition DISTRICTS : list str := architect_buildings.DISTRICTS.

Definition STOPWORDS : list str :=
  Eval vm_compute in
    List.map u [
      "광주"; "광주광역시"; "대한민국"; "국가"; "등록"; "등록문화재";
      "국가등록문화재";
      "유형문화재"; "문화재자료"; "기념물"; "명승"; "사적"; "지정"; "승격";
      "조선시대"; "일제강점기"; "근대"; "현대"; "개관"; "준공"; "완공";
      "증축"; "중건";
      "복원"; "보수"; "이전"; "신축"; "리모델링";
      "건물"; "건축"; "건축물"; "시설"; "공간"; "장소"; "지역"; "현재";
      "당시";
      "규모"; "구성"; "가치"; "특징"; "활용"; "사용"; "부문"
    ]%string.

(** [for d in ds: if d in addr: return d] *)
Fixpoint first_contained (ds : list str) (addr : str) : option str :=
  match ds with
  | [] => None
  | d :: ds' => if contains d addr then Some d else first_contained ds' addr
  end.

(** The result is a district or [None]. *)
Definition extract_district (addr : value) : option str :=
  match addr with
  | VStr addr => first_contained DISTRICTS addr
  | _ => None
  end.

Fixpoint nouns_loop (ts : list morph) (tokens : list str) : list str :=
  match ts with
  | [] => tokens
  | t :: ts' =>
    if str_eqb (pos t) NNG || str_eqb (pos t) NNP then
      if (2 <=? length (form t))%nat
         && negb (bool_decide (form t ∈ STOPWORDS))
      then nouns_loop ts' (tokens ++ [form t])
      else nouns_loop ts' tokens
    else nouns_loop ts' tokens
  end.

Section WithDB.
Context {db : UnicodeDB}.

(** The patterns [RE_ORD], [RE_YEAR], [RE_PUNCT] and [RE_MULTI] are
    those of [architect_buildings.py]; [RE_NUM] also takes a comma:
    [\b\d+(?:[.,]\d+)?\b] *)
Definition RE_NUM : regex :=
  Seq WordB (Seq (Rep is_decimal 1 None)
    (Seq (Opt (Seq (Cls (fun c => char_eqb FULL_STOP c || char_eqb COMMA c))
                   (Rep is_decimal 1 None)))
      WordB)).

Definition clean_text (text : value) : str :=
  match text with
  | VStr text =>
    let t := replace (u "5·18") (u "오월민주화") text in
    let t := sub RE_ORD SPACE t in
    let t := sub RE_YEAR SPACE t in
    let t := sub RE_NUM SPACE t in
    let t := sub RE_PUNCT SPACE t in
    let t := strip (sub RE_MULTI SPACE t) in
    t
  | _ => []
  end.

Section WithAnalyzer.
Variable analyze : str -> list (list morph * R).

Definition nouns_only (text : str) : result (list str) :=
  match text with
  | [] => Ok []
  | _ =>
    first ← index0 (analyze text);
    Ok (nouns_loop (fst first) [])
  end.
End WithAnalyzer.
End WithDB.
End main2.

(** ** The ranker on a store of objects

    [log_odds_dirichlet] is handed two [Counter] objects by reference.
    Here they live in a store and every method call on them is a step on
    the store, so that what the ranker does to its arguments can be
    stated. *)

Module Heap.
Import architect_buildings.

Definition ref := nat.
Definition heap := ref -> Counter.
Definition M (A : Type) := heap -> result A * heap.

Definition ret {A} (a : A) : M A := fun h => (Ok a, h).
Definition raise {A} (e : exn) : M A := fun h => (Raise e, h).
Definition bind {A B} (c : M A) (f : A -> M B) : M B :=
  fun h =>
    match c h with
    | (Ok a, h') => f a h'
    | (Raise e, h') => (Raise e, h')
    end.
Definition lift {A} (r : result A) : M A := fun h => (r, h).

(** The methods of a counter the scripts call. *)
Definition counter_keys (r : ref) : M (list str) :=
  fun h => (Ok (keys (h r)), h).
Definition counter_values (r : ref) : M (list nat) :=
  fun h => (Ok (values (h r)), h).
Definition counter_get (r : ref) (w : str) : M nat :=
  fun h => (Ok (get (h r) w), h).
(** [r += other], the one mutation [build_district_keywords] makes. *)
Definition counter_iadd (r other : ref) : M unit :=
  fun h =>
    (Ok tt, fun r' => if Nat.eqb r' r then iadd (h r) (h other) else h r').

Fixpoint rank_loop_st (ws : list str) (one rest : ref) (alpha : R)
    (min_count : Z) (n1 n0 V : nat) (out : list entry)
    : M (list entry) :=
  match ws with
  | [] => ret out
  | w :: ws' =>
    bind (counter_get one w) (fun c1 =>
    bind (counter_get rest w) (fun c0 =>
    if (Z.of_nat c1 <? min_count)%Z
    then rank_loop_st ws' one rest alpha min_count n1 n0 V out
    else
      bind (lift (score c1 c0 n1 n0 V alpha)) (fun s =>
      rank_loop_st ws' one rest alpha min_count n1 n0 V
        (out ++ [(w, s, c1, c0)]))))
  end.

(** [vocab_order] gives the order a run iterates the set built from the
    two key lists. *)
Definition log_odds_dirichlet_st
    (vocab_order : list str -> list str -> list str) (one rest : ref)
    (alpha : R) (topn : Z) (min_count : Z) : M (list entry) :=
  bind (counter_keys one) (fun k1 =>
  bind (counter_keys rest) (fun k0 =>
  let vocab := vocab_order k1 k0 in
  bind (counter_values one) (fun v1 =>
  bind (counter_values rest) (fun v0 =>
  let n1 := sum v1 in
  let n0 := sum v0 in
  let V := match length vocab with O => 1%nat | S _ => length vocab end in
  bind (rank_loop_st vocab one rest alpha min_count n1 n0 V []) (fun out =>
  ret (slice_to (sort_desc by_score out) topn)))))).
End Heap.

(** ** The specification's own words

    Definitions written from the specification, to be compared with the
    ones above. *)

Module Spec.
Import architect_buildings.

(** A segment tagged as common noun or proper noun. *)
Definition is_noun (t : morph) : Prop := pos t = NNG \/ pos t = NNP.

(** The token invariant. *)
Definition is_token (w : str) : Prop :=
  (2 <= length w)%nat /\ ~ In w STOPWORDS.

Definition keep (t : morph) : bool :=
  bool_decide (is_noun t /\ is_token (form t)).

(** The first analysis of a text. *)
Definition first_analysis (analyze : str -> list (list morph * R))
    (text : str) : list morph :=
  match analyze text with
  | [] => []
  | a :: _ => fst a
  end.

Definition tokenize (analyze : str -> list (list morph * R))
    (text : str) : list str :=
  match text with
  | [] => []
  | _ => List.map form (List.filter keep (first_analysis analyze text))
  end.

(** The union vocabulary of two counters. *)
Definition vocab (target rest : Counter) : list str :=
  remove_dups (keys target ++ keys rest).

Definition total (c : Counter) : nat := sum (values c).

Definition proportion (c n : nat) (alpha : R) (V : nat) : R :=
  ((cnt c + alpha) / (cnt n + alpha * cnt V))%R.

Definition log_odds (p : R) : R :=
  ln (p / (1 - p + 1 / 1000000000000))%R.

Definition p1 (target rest : Counter) (alpha : R) (w : str) : R :=
  proportion (get target w) (total target) alpha
    (Nat.max (length (vocab target rest)) 1).

Definition p0 (target rest : Counter) (alpha : R) (w : str) : R :=
  proportion (get rest w) (total rest) alpha
    (Nat.max (length (vocab target rest)) 1).

Definition score (target rest : Counter) (alpha : R) (w : str) : R :=
  (log_odds (p1 target rest alpha w) - log_odds (p0 target rest alpha w))%R.

Definition entry_of (target rest : Counter) (alpha : R) (w : str)
    : entry :=
  (w, score target rest alpha w, get target w, get rest w).

Definition gate (target : Counter) (min_count : Z) (w : str) : bool :=
  (min_count <=? Z.of_nat (get target w))%Z.

(** Sorted by score, descending. *)
Definition by_score_desc (l : list entry) : Prop :=
  StronglySorted (fun a b => (e_score b <= e_score a)%R) l.

(** Sorted by count, descending. *)
Definition by_count_desc (l : list (str * nat)) : Prop :=
  StronglySorted (fun a b => (snd b <= snd a)%nat) l.

(** A district or the sentinel. *)
Definition is_label (d : str) : Prop := In d DISTRICTS_WITH_ETC.

(** [d] occurs in [s] at position [i]. *)
Definition occurs_at (d s : str) (i : nat) : Prop :=
  startswith d (drop i s) = true.

(** The first of the words [ds] that [s] starts with. *)
Definition first_prefix (ds : list str) (s : str) : option str :=
  List.find (fun d => startswith d s) ds.

(** [label] is the district that occurs leftmost in [s], or the
    sentinel when none occurs. *)
Definition leftmost_district (s label : str) : Prop :=
  (exists k, In label DISTRICTS /\ occurs_at label s k
     /\ forall k' d', (k' < k)%nat -> In d' DISTRICTS ->
          ~ occurs_at d' s k')
  \/ (label = ETC
      /\ forall k d', In d' DISTRICTS -> ~ occurs_at d' s k).

(** The distinct tokens of a list, in the order of their first
    occurrence. *)
Fixpoint first_occurrences (toks : list str) : list str :=
  match toks with
  | [] => []
  | w :: toks' =>
    w :: List.filter (fun x => negb (str_eqb x w)) (first_occurrences toks')
  end.

(** How often [w] occurs in [toks]. *)
Definition occurrences (toks : list str) (w : str) : nat :=
  length (List.filter (fun x => str_eqb x w) toks).

(** The raw frequency of each distinct token. *)
Definition frequencies (toks : list str) : list (str * nat) :=
  List.map (fun w => (w, occurrences toks w)) (first_occurrences toks).

(** The records of the unclassified bucket and their tokens. *)
Definition unclassified_rows (df : DataFrame) : list Row :=
  List.filter (fun r => cell_is (district r) ETC) (rows df).

Definition description {db : UnicodeDB} (df : DataFrame) (r : Row) : str :=
  clean_text_for_kw (fillna (if has_DC_CN df then DC_CN r else VStr [])).

Definition unclassified_tokens {db : UnicodeDB}
    (analyze : str -> list (list morph * R)) (df : DataFrame) : list str :=
  List.concat
    (List.map (fun r => tokenize analyze (description df r))
       (unclassified_rows df)).

(** The bucket's own tokens by raw frequency, descending, truncated to
    [topn], with score 0.0. *)
Definition unclassified_items {db : UnicodeDB}
    (analyze : str -> list (list morph * R)) (df : DataFrame) (topn : Z)
    : list item :=
  List.map (fun kc => {| kw := fst kc; cnt_ := snd kc; score_ := 0%R |})
    (take (Z.to_nat topn)
       (sort_desc (fun y x => (snd y <=? snd x)%nat)
          (frequencies (unclassified_tokens analyze df)))).

(** The length of the longest prefix of [s] in the class [p]. *)
Fixpoint span (p : char -> bool) (s : str) : nat :=
  match s with
  | [] => 0%nat
  | c :: s' => if p c then S (span p s') else 0%nat
  end.

(** [s] does not start with white space. *)
Definition head_not_space {db : UnicodeDB} (s : str) : Prop :=
  match s with
  | [] => True
  | c :: _ => is_space c = false
  end.

(** White space occurs in [s] only as single U+0020 between other code
    points, or as a single U+0020 at its end. *)
Fixpoint single_spaced {db : UnicodeDB} (s : str) : Prop :=
  match s with
  | [] => True
  | c :: s' =>
    (is_space c = true -> c = 32%N /\ head_not_space s')
    /\ single_spaced s'
  end.

(** No code point of [s] is in the class that [RE_PUNCT] replaces. *)
Definition punct_free {db : UnicodeDB} (s : str) : Prop :=
  Forall (fun c => punct c = false) s.

(** A pattern whose every match goes through a run of digits. *)
Inductive needs_digit {db : UnicodeDB} : regex -> Prop :=
| nd_here (lo : nat) (hi : option nat) (r : regex) :
    needs_digit (Seq (Rep is_decimal (S lo) hi) r)
| nd_later (r1 r2 : regex) :
    needs_digit r2 -> needs_digit (Seq r1 r2).

(** No decimal digit in a string. *)
Definition digit_free {db : UnicodeDB} (s : str) : Prop :=
  Forall (fun c => is_decimal c = false) s.
End Spec.

(** ** Concrete inputs *)

Module Scenario.
Import architect_buildings.

Definition hanok : str := Eval vm_compute in u "한옥".
Definition jeongwon : str := Eval vm_compute in u "정원".
Definition apateu : str := Eval vm_compute in u "아파트".

(** The scenario of the specification: [{"한옥": 5, "정원": 3}] against
    [{"한옥": 1, "아파트": 4}]. *)
Definition target : Counter := [(hanok, 5%nat); (jeongwon, 3%nat)].
Definition rest : Counter := [(hanok, 1%nat); (apateu, 4%nat)].

(** What a run on the scenario returns when it iterates the vocabulary
    in the order [Spec.vocab]. *)
Definition ranked (topn : Z) : list entry :=
  slice_to
    (sort_desc by_score
       (List.map (Spec.entry_of target rest (1 / 100)%R)
          (List.filter (Spec.gate target 2) (Spec.vocab target rest))))
    topn.


End Scenario.

(** ** More of the Python run time *)

Module PyMore.
Section WithDB.
Context {db : UnicodeDB}.

(** [s.split()]: the words between runs of white space; [cur] is the
    word being read. *)
Fixpoint split_go (s cur : str) : list str :=
  match s with
  | [] =>
    match cur with
    | [] => []
    | _ => [cur]
    end
  | c :: s' =>
    if is_space c then
      match cur with
      | [] => split_go s' []
      | _ => cur :: split_go s' []
      end
    else split_go s' (cur ++ [c])
  end.

Definition split (s : str) : list str := split_go s [].
End WithDB.

(** [c.pop(w, None)] *)
Definition counter_pop (c : Counter) (w : str) : Counter :=
  List.filter (fun kv => negb (str_eqb (fst kv) w)) c.

(** [.dropna()] on a column *)
Definition notna (v : value) : bool :=
  match v with
  | VNone | VNaN => false
  | _ => true
  end.
End PyMore.

(** ** main.py, the keywords of a district *)

Module main_py_keywords.
Import architect_buildings PyMore.

Definition stopwords : list str :=
  Eval vm_compute in
    List.map u ["있다"; "이다"; "한다"; "있는"; "대한"; "위해"; "관련"]%string.

(** 가-힣 *)
Definition hangul (c : char) : bool := in_range 44032 55203 c.

Section WithDB.
Context {db : UnicodeDB}.

(** [[^가-힣\s]] *)
Definition RE_NOT_HANGUL : regex :=
  Cls (fun c => negb (hangul c || is_space c)).

Definition clean_text (text : value) : list str :=
  let text := str_of text in
  let text := sub RE_NOT_HANGUL [] text in
  split text.

(** [df[df["district"] == district]["DC_CN"].dropna()] *)
Definition texts_of (rows : list Row) (d : str) : list value :=
  List.filter notna
    (List.map DC_CN (List.filter (fun r => cell_is (district r) d) rows)).

(** [for text in texts: words.extend(clean_text(text))] *)
Definition words_of (texts : list value) : list str :=
  List.concat (List.map clean_text texts).

(** The body of the loop over the districts: [district_keywords[district]]. *)
Definition district_keywords (rows : list Row) (d : str)
    : list (str * nat) :=
  let words := words_of (texts_of rows d) in
  let counter := count words in
  let counter := fold_left counter_pop stopwords counter in
  most_common counter 10.
End WithDB.
End main_py_keywords.

(** ** main2.py, the frequency keywords and the keywords of the script *)

Module main2_keywords.
Import architect_buildings PyMore.

Section WithDB.
Context {db : UnicodeDB}.

Section WithAnalyzer.
Variable analyze : str -> list (list morph * R).

(** [for s in ...: nouns.extend(nouns_only(s))] *)
Fixpoint extend_nouns (ss : list str) (nouns : list str)
    : result (list str) :=
  match ss with
  | [] => Ok nouns
  | s :: ss' =>
    ns ← main2.nouns_only analyze s;
    extend_nouns ss' (nouns ++ ns)
  end.

(** [district_nouns[dist]] in [run_keybert_by_district], from the cleaned
    texts of the district. *)
Definition district_nouns (texts : list str) : result (list str) :=
  nouns ← extend_nouns texts [];
  Ok (List.filter
        (fun n => (1 <? length n)%nat
                  && negb (bool_decide (n ∈ main2.STOPWORDS)))
        nouns).
End WithAnalyzer.

(** [words.extend(clean_text(text))] in the script at the end of the
    file, where [clean_text] returns a [str]: the list is extended by the
    code points of the text, one by one. *)
Definition words_of (texts : list value) : list str :=
  List.concat
    (List.map (fun text => List.map (fun c => [c]) (main2.clean_text text))
       texts).

Definition district_keywords (rows : list Row) (d : str)
    : list (str * nat) :=
  let words := words_of (main_py_keywords.texts_of rows d) in
  let counter := count words in
  let counter := fold_left counter_pop main_py_keywords.stopwords counter in
  most_common counter 10.
End WithDB.
End main2_keywords.

(** ** Pooling the rest on the store *)

Module Heap2.
Import architect_buildings Heap.

(** [rest = Counter()] *)
Definition new_counter (rest : ref) : M unit :=
  fun h => (Ok tt, fun r => if Nat.eqb r rest then [] else h r).

(** [for other in DISTRICTS: if other != dist: rest += counters[other]],
    where the dict [counters] holds the counter objects. *)
Fixpoint pool_rest_st (others : list str) (dist : str)
    (counters : dict ref) (rest : ref) : M unit :=
  match others with
  | [] => ret tt
  | other :: others' =>
    if negb (str_eqb other dist) then
      bind (lift (dict_get counters other)) (fun c =>
      bind (counter_iadd rest c) (fun _ =>
      pool_rest_st others' dist counters rest))
    else pool_rest_st others' dist counters rest
  end.

(** [rest = Counter()] and the loop after it. *)
Definition fresh_rest (dist : str) (counters : dict ref) (rest : ref)
    : M unit :=
  bind (new_counter rest) (fun _ =>
  pool_rest_st DISTRICTS dist counters rest).

(** The dict of the values that the objects of [counters] have in [h]. *)
Definition deref (h : heap) (counters : dict ref) : dict Counter :=
  List.map (fun kr => (fst kr, h (snd kr))) counters.
End Heap2.

(** ** Further words of the specification *)

Module Spec2.
Import architect_buildings.

(** The tokens of the records of a district. *)
Definition district_tokens {db : UnicodeDB}
    (analyze : str -> list (list morph * R)) (df : DataFrame) (dist : str)
    : list str :=
  List.concat
    (List.map (Spec.tokenize analyze) (texts_of (tmp_of df) dist)).

(** The districts other than [dist]. *)
Definition others (dist : str) : list str :=
  List.filter (fun o => negb (str_eqb o dist)) DISTRICTS.

(** How often [w] occurs in the records of the districts other than
    [dist]. *)
Definition occurrences_elsewhere {db : UnicodeDB}
    (analyze : str -> list (list morph * R)) (df : DataFrame) (dist : str)
    (w : str) : nat :=
  sum (List.map (fun o => Spec.occurrences (district_tokens analyze df o) w)
         (others dist)).

(** Items sorted by score, descending. *)
Definition items_by_score_desc (l : list item) : Prop :=
  StronglySorted (fun a b => (score_ b <= score_ a)%R) l.

(** What [build_district_keywords] promises of the items of a district. *)
Definition district_items_ok (topn min_count : Z) (items : list item)
    : Prop :=
  items_by_score_desc items
  /\ Forall (fun it => (min_count <= Z.of_nat (cnt_ it))%Z) items
  /\ ((0 <= topn)%Z -> (Z.of_nat (length items) <= topn)%Z).

(** White space does not start or end a text. *)
Definition stripped {db : UnicodeDB} (s : str) : Prop :=
  Spec.head_not_space s /\ Spec.head_not_space (rev s).
End Spec2.

(** ** The scenario, rest against target *)

Module Scenario2.
Import architect_buildings Scenario.

(** What a run of rest against target returns, with [min_count = 1]. *)
Definition ranked_rest (topn : Z) : list entry :=
  slice_to
    (sort_desc by_score
       (List.map (Spec.entry_of rest target (1 / 100)%R)
          (List.filter (Spec.gate rest 1) (Spec.vocab rest target))))
    topn.

(** A frame with one record per bucket. *)
Definition frame : DataFrame :=
  {| has_DC_CN := true;
     rows := [ {| district := VStr (u "동구");
                  DC_CN := VStr (u "한옥 정원") |};
               {| district := VStr (u "서구");
                  DC_CN := VStr (u "한옥 아파트") |};
               {| district := VStr (u "기타"); DC_CN := VNaN |} ] |}.

(** An analyzer that takes every word between spaces for a common noun. *)
Fixpoint words (s cur : str) (start : nat) : list morph :=
  match s with
  | [] =>
    match cur with
    | [] => []
    | _ => [(cur, NNG, start, length cur)]
    end
  | c :: s' =>
    if char_eqb c 32%N then
      match cur with
      | [] => words s' [] (S start)
      | _ => (cur, NNG, start, length cur)
             :: words s' [] (S (start + length cur))
      end
    else words s' (cur ++ [c]) start
  end.

Definition analyze (text : str) : list (list morph * R) :=
  [(words text [] 0, 0%R)].
(** A store with the counter objects of the five districts. *)
Definition counters : dict Heap.ref :=
  [(u "동구", 0%nat); (u "서구", 1%nat); (u "남구", 2%nat);
   (u "북구", 3%nat); (u "광산구", 4%nat)].

Definition store : Heap.heap :=
  fun r => if Nat.eqb r 0 then Scenario.target else Scenario.rest.
End Scenario2.

(** ** Tactics *)

(** Decodes the literals of a goal. *)
Ltac eval_u :=
  repeat match goal with
  | |- context [Py.u ?s] =>
      let x := eval vm_compute in (Py.u s) in change (Py.u s) with x
  end.

(** Evaluates the counts of a scenario in a goal about its scores. *)
Ltac eval_counts :=
  unfold Spec.score, Spec.p1, Spec.p0, Spec.proportion;
  repeat match goal with
  | |- context [Py.cnt ?n] =>
      let x := eval vm_compute in (Z.of_nat n) in
      change (Py.cnt n) with (IZR x)
  end.

(* ===================================================================== *)
(** * Part II: properties                                                 *)
(* ===================================================================== *)

Import architect_buildings.

(** ** Results and strings *)

Lemma bind_Ok {A B} (a : A) (f : A -> result B) : (Ok a ≫= f) = f a.
Proof. reflexivity. Qed.

Lemma bind_Ok_inv {A B} (r : result A) (f : A -> result B) (b : B) :
  (r ≫= f) = Ok b -> exists a, r = Ok a /\ f a = Ok b.
Proof. destruct r as [a|e]; [eauto | discriminate]. Qed.

Lemma str_eqb_true (a b : str) : str_eqb a b = true <-> a = b.
Proof. unfold str_eqb. apply bool_decide_eq_true. Qed.

Lemma str_eqb_false (a b : str) : str_eqb a b = false <-> a <> b.
Proof. unfold str_eqb. apply bool_decide_eq_false. Qed.

Lemma str_eqb_refl (a : str) : str_eqb a a = true.
Proof. by apply str_eqb_true. Qed.

Lemma In_elem_of {A} (x : A) (l : list A) : In x l <-> x ∈ l.
Proof. symmetry. apply list_elem_of_In. Qed.

(** ** The tokenizer *)

Section Tokenizer.
Variable analyze : str -> list (list morph * R).

Lemma keep_spec (t : morph) :
  Spec.keep t =
    (str_eqb (pos t) NNG || str_eqb (pos t) NNP)
    && ((2 <=? length (form t))%nat
        && negb (bool_decide (form t ∈ STOPWORDS))).
Proof.
  unfold Spec.keep, Spec.is_noun, Spec.is_token.
  apply eq_true_iff_eq.
  rewrite bool_decide_eq_true, !andb_true_iff, orb_true_iff,
    negb_true_iff, bool_decide_eq_false, !str_eqb_true, Nat.leb_le,
    In_elem_of.
  tauto.
Qed.

Lemma nouns_loop_filter (ts : list morph) (tokens : list str) :
  nouns_loop ts tokens = tokens ++ List.map form (List.filter Spec.keep ts).
Proof.
  revert tokens.
  induction ts as [|t ts IH]; intros tokens; cbn [nouns_loop List.filter].
  - by rewrite app_nil_r.
  - rewrite keep_spec.
    destruct (str_eqb (pos t) NNG || str_eqb (pos t) NNP);
      destruct ((2 <=? length (form t))%nat
                && negb (bool_decide (form t ∈ STOPWORDS)));
      cbn [andb List.map]; rewrite IH; try reflexivity.
    by rewrite <- app_assoc.
Qed.

Lemma nouns_only_tokenize (text : str) :
  nouns_only analyze text = Ok (Spec.tokenize analyze text).
Proof.
  unfold nouns_only, Spec.tokenize, Spec.first_analysis.
  destruct text as [|c text]; [reflexivity|].
  destruct (analyze (c :: text)) as [|a rest]; [reflexivity|].
  simpl. by rewrite nouns_loop_filter.
Qed.
End Tokenizer.

Lemma filter_map_sublist {A B} (f : A -> B) (p : A -> bool) (l : list A) :
  sublist (List.map f (List.filter p l)) (List.map f l).
Proof.
  induction l as [|x l IH]; cbn [List.filter List.map].
  - constructor.
  - destruct (p x); cbn [List.map]; by constructor.
Qed.

Lemma nouns_only_never_fails (analyze : str -> list (list morph * R))
    (text : str) :
  exists toks, nouns_only analyze text = Ok toks.
Proof. eexists. apply nouns_only_tokenize. Qed.

Lemma nouns_only_empty_text (analyze : str -> list (list morph * R)) :
  nouns_only analyze [] = Ok [].
Proof. reflexivity. Qed.

Lemma nouns_only_empty_analysis (analyze : str -> list (list morph * R))
    (text : str) :
  analyze text = [] -> nouns_only analyze text = Ok [].
Proof.
  intros H. unfold nouns_only. rewrite H. by destruct text.
Qed.

Lemma main2_nouns_only_empty_text (analyze : str -> list (list morph * R)) :
  main2.nouns_only analyze [] = Ok [].
Proof. reflexivity. Qed.

Lemma main2_nouns_only_empty_analysis
    (analyze : str -> list (list morph * R)) (text : str) :
  text <> [] -> analyze text = [] ->
  main2.nouns_only analyze text = Raise IndexError.
Proof.
  intros Ht H. unfold main2.nouns_only. rewrite H. by destruct text.
Qed.

(** C7: [nouns_only] returns the forms of the morphemes of the first
    analysis that are tagged NNG or NNP, have at least two code points and
    are not stopwords, in the order of the analysis and with their
    repetitions; so every token it returns has length at least 2, is no
    stopword and comes from a noun segment. *)
Theorem nouns_only_tokens (analyze : str -> list (list morph * R))
    (text : str) :
  exists toks,
    nouns_only analyze text = Ok toks
    /\ toks = match text with
              | [] => []
              | _ => List.map form
                       (List.filter Spec.keep
                          (Spec.first_analysis analyze text))
              end
    /\ Forall (fun w => (2 <= length w)%nat /\ ~ In w STOPWORDS) toks
    /\ (forall w, In w toks ->
          exists t, In t (Spec.first_analysis analyze text)
                    /\ (pos t = NNG \/ pos t = NNP) /\ form t = w)
    /\ sublist toks (List.map form (Spec.first_analysis analyze text)).
Proof.
  exists (Spec.tokenize analyze text).
  split; [apply nouns_only_tokenize|].
  split; [reflexivity|].
  unfold Spec.tokenize.
  destruct text as [|c text].
  { repeat split; [constructor | intros w [] | apply sublist_nil_l]. }
  set (ts := Spec.first_analysis analyze (c :: text)).
  assert (Hin : forall w, In w (List.map form (List.filter Spec.keep ts)) ->
            exists t, In t ts /\ Spec.is_noun t /\ Spec.is_token w
                      /\ form t = w).
  { intros w Hw. apply in_map_iff in Hw as (t & <- & Ht).
    apply filter_In in Ht as [Ht Hk].
    unfold Spec.keep in Hk. apply bool_decide_eq_true in Hk as [Hn Htok].
    eauto. }
  repeat split.
  - apply List.Forall_forall. intros w Hw.
    destruct (Hin w Hw) as (t & _ & _ & Htok & _). exact Htok.
  - intros w Hw. destruct (Hin w Hw) as (t & Ht & Hn & _ & Hf). eauto.
  - apply filter_map_sublist.
Qed.


(** ** District extraction *)

Lemma startswith_take (d s : str) :
  startswith d s = true -> take (length d) s = d.
Proof.
  revert s. induction d as [|a d IH]; intros [|b s]; simpl; try done.
  unfold char_eqb. intros [Hab Hd]%andb_true_iff.
  apply N.eqb_eq in Hab as ->. by rewrite IH.
Qed.

Section District.
Context {db : UnicodeDB}.

Lemma m_lit (w : str) (prev : option char) (s : str) (n : nat) :
  m (lit w) prev s n (fun _ _ n => Some n)
  = if startswith w s then Some (n + length w)%nat else None.
Proof.
  revert prev s n. induction w as [|c w IH]; intros prev s n.
  - simpl. f_equal. lia.
  - destruct s as [|c' s]; [reflexivity|].
    cbn [lit m startswith]. destruct (char_eqb c c'); [|reflexivity].
    cbn [andb]. rewrite IH. destruct (startswith w s); [|reflexivity].
    f_equal. simpl. lia.
Qed.

Lemma match_at_district (prev : option char) (s : str) :
  match_at RE_DISTRICT prev s = length <$> Spec.first_prefix DISTRICTS s.
Proof.
  unfold match_at, RE_DISTRICT, Spec.first_prefix, DISTRICTS.
  cbn [m List.find]. rewrite !m_lit. eval_u.
  repeat match goal with
  | |- context [startswith ?d s] =>
      destruct (startswith d s); [reflexivity|]
  end.
  reflexivity.
Qed.

Lemma first_prefix_Some (ds : list str) (s d : str) :
  Spec.first_prefix ds s = Some d -> In d ds /\ startswith d s = true.
Proof. intros H. by apply find_some in H. Qed.

Lemma first_prefix_None (ds : list str) (s d : str) :
  Spec.first_prefix ds s = None -> In d ds -> startswith d s = false.
Proof. intros H Hd. exact (find_none _ _ H d Hd). Qed.

Lemma districts_nonempty (d : str) : In d DISTRICTS -> d <> [].
Proof. unfold DISTRICTS. simpl. intuition (subst; discriminate). Qed.

Lemma startswith_nil_r (d : str) : d <> [] -> startswith d [] = false.
Proof. by destruct d. Qed.

Lemma search_go_district (prev : option char) (s : str) (i : nat) :
  match search_go RE_DISTRICT prev s i with
  | Some (j, n) =>
    exists k d, j = (i + k)%nat /\ In d DISTRICTS /\ n = length d
      /\ Spec.occurs_at d s k
      /\ forall k' d', (k' < k)%nat -> In d' DISTRICTS ->
           ~ Spec.occurs_at d' s k'
  | None => forall k d', In d' DISTRICTS -> ~ Spec.occurs_at d' s k
  end.
Proof.
  unfold Spec.occurs_at.
  revert prev i. induction s as [|c s IH]; intros prev i;
    cbn [search_go]; rewrite match_at_district.
  - destruct (Spec.first_prefix DISTRICTS []) as [d|] eqn:Hd.
    + apply first_prefix_Some in Hd as [Hin Hs].
      rewrite startswith_nil_r in Hs by by apply districts_nonempty.
      discriminate.
    + simpl. intros k d' Hin. rewrite drop_nil.
      rewrite startswith_nil_r by by apply districts_nonempty. done.
  - destruct (Spec.first_prefix DISTRICTS (c :: s)) as [d|] eqn:Hd.
    + apply first_prefix_Some in Hd as [Hin Hs]. simpl.
      exists 0%nat, d.
      split; [lia|]. do 3 (split; [done|]). intros; lia.
    + simpl. specialize (IH (Some c) (S i)).
      destruct (search_go RE_DISTRICT (Some c) s (S i)) as [[j n]|].
      * destruct IH as (k & d & -> & Hin & -> & Hocc & Hmin).
        exists (S k), d.
        split; [lia|]. do 3 (split; [done|]).
        intros [|k'] d' Hlt Hin'.
        -- simpl. by rewrite (first_prefix_None _ _ _ Hd Hin').
        -- simpl. apply Hmin; [lia | done].
      * intros [|k] d' Hin'.
        -- simpl. by rewrite (first_prefix_None _ _ _ Hd Hin').
        -- simpl. by apply IH.
Qed.

Lemma extract_district_leftmost (address : value) :
  Spec.leftmost_district (str_of address) (extract_district address).
Proof.
  unfold extract_district, search.
  pose proof (search_go_district None (str_of address) 0) as H.
  destruct (search_go RE_DISTRICT None (str_of address) 0) as [[j n]|].
  - destruct H as (k & d & -> & Hin & -> & Hocc & Hmin).
    left. exists k. unfold group. simpl.
    rewrite (startswith_take _ _ Hocc). done.
  - right. done.
Qed.

Lemma main_py_extract_district (address : value) :
  main_py.extract_district address = extract_district address.
Proof. reflexivity. Qed.

Lemma leftmost_district_label (s label : str) :
  Spec.leftmost_district s label -> Spec.is_label label.
Proof.
  unfold Spec.is_label, DISTRICTS_WITH_ETC.
  intros [(k & Hin & _)|[-> _]]; apply in_or_app; [by left|right; by left].
Qed.
End District.

Lemma contains_occurs (d s : str) :
  contains d s = true <-> exists k, Spec.occurs_at d s k.
Proof.
  unfold Spec.occurs_at. induction s as [|c s IH]; cbn [contains].
  - rewrite orb_false_r. split; [by exists 0%nat|].
    intros [k Hk]. by rewrite drop_nil in Hk.
  - rewrite orb_true_iff, IH. split.
    + intros [H|[k Hk]]; [by exists 0%nat | by exists (S k)].
    + intros [[|k] Hk]; [by left | right; by exists k].
Qed.

Lemma first_contained_Some (ds : list str) (addr d : str) :
  main2.first_contained ds addr = Some d ->
  exists ds1 ds2, ds = ds1 ++ d :: ds2 /\ contains d addr = true
    /\ forall d', In d' ds1 -> contains d' addr = false.
Proof.
  induction ds as [|d0 ds IH]; cbn [main2.first_contained]; [done|].
  destruct (contains d0 addr) eqn:Hc.
  - intros [= <-]. exists [], ds. repeat split; [done | intros d' []].
  - intros (ds1 & ds2 & -> & Hd & Hmin)%IH.
    exists (d0 :: ds1), ds2. repeat split; [done|].
    intros d' [<-|Hin]; [done | by apply Hmin].
Qed.

Lemma first_contained_None (ds : list str) (addr : str) :
  main2.first_contained ds addr = None <->
  forall d, In d ds -> contains d addr = false.
Proof.
  induction ds as [|d0 ds IH]; cbn [main2.first_contained].
  - split; [intros _ d [] | done].
  - destruct (contains d0 addr) eqn:Hc.
    + split; [done|]. intros H. specialize (H d0 (or_introl eq_refl)).
      congruence.
    + rewrite IH. split.
      * intros H d [<-|Hin]; [done | by apply H].
      * intros H d Hin. apply H. by right.
Qed.



(** In [main2.py] the order of [DISTRICTS] decides, not the position in
    the address. *)
Lemma main2_extract_district_list_order :
  main2.extract_district (VStr (u "광주광역시 서구 동구로")) = Some (u "동구")
  /\ extract_district (db := hangul_db) (VStr (u "광주광역시 서구 동구로"))
     = u "서구".
Proof. split; vm_compute; reflexivity. Qed.

(** ** Sorting and slicing *)

Section Sorting.
Context {A : Type} (leb : A -> A -> bool).
Hypothesis leb_total : forall x y, leb x y = false -> leb y x = true.
Hypothesis leb_trans :
  forall x y z, leb x y = true -> leb y z = true -> leb x z = true.

Local Abbreviation desc := (desc leb).

Lemma insert_desc_perm (x : A) (l : list A) :
  Permutation (insert_desc leb x l) (x :: l).
Proof.
  induction l as [|y l IH]; cbn [insert_desc]; [done|].
  destruct (leb y x); [done|].
  rewrite IH. apply perm_swap.
Qed.

Lemma sort_desc_perm (l : list A) : Permutation (sort_desc leb l) l.
Proof.
  induction l as [|x l IH]; cbn [sort_desc]; [done|].
  rewrite insert_desc_perm. by constructor.
Qed.

Lemma insert_desc_sorted (x : A) (l : list A) :
  StronglySorted desc l -> StronglySorted desc (insert_desc leb x l).
Proof using leb_total leb_trans.
  induction 1 as [|y l Hs IH Hy]; cbn [insert_desc].
  - repeat constructor.
  - destruct (leb y x) eqn:Hyx.
    + constructor; [by constructor|].
      constructor; [done|].
      eapply List.Forall_impl; [|exact Hy].
      intros z Hz. unfold desc in *. eauto.
    + constructor; [done|].
      eapply Permutation_Forall; [symmetry; apply insert_desc_perm|].
      constructor; [|done]. unfold desc. by apply leb_total.
Qed.

Lemma sort_desc_sorted (l : list A) : StronglySorted desc (sort_desc leb l).
Proof using leb_total leb_trans.
  induction l as [|x l IH]; cbn [sort_desc]; [constructor|].
  by apply insert_desc_sorted.
Qed.
End Sorting.

Lemma StronglySorted_mono {A} (R1 R2 : A -> A -> Prop) (l : list A) :
  (forall a b, R1 a b -> R2 a b) -> StronglySorted R1 l -> StronglySorted R2 l.
Proof.
  intros HR. induction 1 as [|x l Hs IH Hx]; constructor; [done|].
  eapply List.Forall_impl; [|exact Hx]. intros b. apply HR.
Qed.

Lemma StronglySorted_take {A} (R : A -> A -> Prop) (k : nat) (l : list A) :
  StronglySorted R l -> StronglySorted R (take k l).
Proof.
  intros H. revert k. induction H as [|x l Hs IH Hx]; intros [|k]; simpl;
    try constructor; [apply IH|].
  apply List.Forall_forall. intros y Hy.
  rewrite List.Forall_forall in Hx. apply Hx.
  apply In_elem_of. eapply subseteq_take. by apply In_elem_of.
Qed.

Lemma slice_to_take {A} (l : list A) (n : Z) :
  exists k, slice_to l n = take k l.
Proof. unfold slice_to. destruct (0 <=? n)%Z; eauto. Qed.

Lemma slice_to_In {A} (l : list A) (n : Z) (x : A) :
  In x (slice_to l n) -> In x l.
Proof.
  destruct (slice_to_take l n) as [k ->]. rewrite !In_elem_of.
  apply subseteq_take.
Qed.

Lemma slice_to_length {A} (l : list A) (n : Z) :
  (0 <= n)%Z -> (Z.of_nat (length (slice_to l n)) <= n)%Z.
Proof.
  intros Hn. unfold slice_to.
  destruct (Z.leb_spec 0 n); [|lia]. rewrite length_take. lia.
Qed.

Lemma slice_to_all {A} (l : list A) (n : Z) :
  (Z.of_nat (length l) <= n)%Z -> slice_to l n = l.
Proof.
  intros Hn. unfold slice_to.
  destruct (Z.leb_spec 0 n); [|lia]. apply take_ge. lia.
Qed.

Lemma slice_to_negative {A} (l : list A) (n : Z) :
  (n < 0)%Z -> length (slice_to l n) = (length l - Z.to_nat (- n))%nat.
Proof.
  intros Hn. unfold slice_to.
  destruct (Z.leb_spec 0 n); [lia|]. rewrite length_take. lia.
Qed.

Lemma Rleb_true (a b : R) : Rleb a b = true <-> (a <= b)%R.
Proof. unfold Rleb. destruct (Rle_dec a b); split; (done || lra). Qed.

Lemma Rleb_false (a b : R) : Rleb a b = false <-> (b < a)%R.
Proof. unfold Rleb. destruct (Rle_dec a b); split; (done || lra). Qed.

Lemma by_score_total (x y : entry) :
  by_score x y = false -> by_score y x = true.
Proof. unfold by_score. rewrite Rleb_false, Rleb_true. lra. Qed.

Lemma by_score_trans (x y z : entry) :
  by_score x y = true -> by_score y z = true -> by_score x z = true.
Proof. unfold by_score. rewrite !Rleb_true. lra. Qed.

Lemma sort_by_score_sorted (l : list entry) :
  Spec.by_score_desc (sort_desc by_score l).
Proof.
  unfold Spec.by_score_desc.
  eapply StronglySorted_mono;
    [|apply (sort_desc_sorted by_score by_score_total by_score_trans)].
  intros a b. unfold desc, by_score. by rewrite Rleb_true.
Qed.

(** ** The ranker *)

Lemma cnt_nonneg (n : nat) : (0 <= cnt n)%R.
Proof. unfold cnt. apply IZR_le. lia. Qed.

Lemma cnt_le (n k : nat) : (n <= k)%nat -> (cnt n <= cnt k)%R.
Proof. intros H. unfold cnt. apply IZR_le. lia. Qed.

Lemma cnt_0 : cnt 0 = 0%R.
Proof. reflexivity. Qed.

Lemma cnt_ge_1 (n : nat) : (1 <= n)%nat -> (1 <= cnt n)%R.
Proof. intros H. unfold cnt. apply IZR_le. lia. Qed.

Lemma get_le_sum (c : Counter) (w : str) : (get c w <= sum (values c))%nat.
Proof.
  induction c as [|[k v] c IH]; simpl; [lia|].
  destruct (str_eqb k w); lia.
Qed.

Lemma get_In_keys (c : Counter) (w : str) :
  get c w <> 0%nat -> In w (keys c).
Proof.
  induction c as [|[k v] c IH]; simpl; [done|].
  destruct (str_eqb k w) eqn:Hk; [apply str_eqb_true in Hk; auto | auto].
Qed.

Lemma fdiv_Ok (a b : R) : b <> 0%R -> fdiv a b = Ok (a / b)%R.
Proof. intros Hb. unfold fdiv. by destruct (Req_dec_T b 0). Qed.

Lemma math_log_Ok (x : R) : (0 < x)%R -> math_log x = Ok (ln x).
Proof. intros Hx. unfold math_log. by destruct (Rlt_dec 0 x). Qed.

Lemma div_cross_lt (a c x y : R) :
  (0 < x)%R -> (0 < y)%R -> (a * y < c * x)%R -> (a / x < c / y)%R.
Proof.
  intros Hx Hy H.
  replace (a / x)%R with (a * y * / (x * y))%R by (field; lra).
  replace (c / y)%R with (c * x * / (x * y))%R by (field; lra).
  apply Rmult_lt_compat_r; [|done].
  apply Rinv_0_lt_compat. nra.
Qed.

Lemma div_le_1 (a x : R) : (0 < x)%R -> (a <= x)%R -> (a / x <= 1)%R.
Proof.
  intros Hx H. replace 1%R with (x * / x)%R by (field; lra).
  apply Rmult_le_compat_r; [|done].
  left. by apply Rinv_0_lt_compat.
Qed.

Lemma denominator_pos (n V : nat) (alpha : R) :
  (0 < alpha)%R -> (1 <= V)%nat -> (0 < cnt n + alpha * cnt V)%R.
Proof.
  intros Ha HV. pose proof (cnt_nonneg n). pose proof (cnt_ge_1 V HV). nra.
Qed.

Lemma proportion_bounds (c n V : nat) (alpha : R) :
  (0 < alpha)%R -> (c <= n)%nat -> (1 <= V)%nat ->
  (0 < Spec.proportion c n alpha V <= 1)%R.
Proof.
  intros Ha Hc HV. unfold Spec.proportion.
  pose proof (denominator_pos n V alpha Ha HV) as HD.
  pose proof (cnt_nonneg c). pose proof (cnt_le c n Hc).
  pose proof (cnt_ge_1 V HV).
  split.
  - apply Rdiv_lt_0_compat; lra.
  - apply div_le_1; [done | nra].
Qed.

Lemma odds_pos (p : R) :
  (0 < p <= 1)%R -> (0 < p / (1 - p + 1 / 1000000000000))%R.
Proof. intros [H0 H1]. apply Rdiv_lt_0_compat; lra. Qed.

Lemma log_odds_lt (p q : R) :
  (0 < p)%R -> (p < q)%R -> (q <= 1)%R ->
  (Spec.log_odds p < Spec.log_odds q)%R.
Proof.
  intros Hp Hpq Hq. unfold Spec.log_odds.
  apply ln_increasing; [apply odds_pos; lra|].
  apply div_cross_lt; [lra | lra | nra].
Qed.

Lemma log_odds_lt_iff (p q : R) :
  (0 < p <= 1)%R -> (0 < q <= 1)%R ->
  (Spec.log_odds p < Spec.log_odds q)%R <-> (p < q)%R.
Proof.
  intros Hp Hq. split; [|intros; apply log_odds_lt; lra].
  intros H. destruct (Rlt_or_le p q) as [|[Hlt| ->]]; [done| |lra].
  pose proof (log_odds_lt q p). lra.
Qed.

Lemma score_Ok (c1 c0 n1 n0 V : nat) (alpha : R) :
  (0 < alpha)%R -> (c1 <= n1)%nat -> (c0 <= n0)%nat -> (1 <= V)%nat ->
  score c1 c0 n1 n0 V alpha
  = Ok (Spec.log_odds (Spec.proportion c1 n1 alpha V)
        - Spec.log_odds (Spec.proportion c0 n0 alpha V))%R.
Proof.
  intros Ha H1 H0 HV. unfold score.
  pose proof (denominator_pos n1 V alpha Ha HV) as HD1.
  pose proof (denominator_pos n0 V alpha Ha HV) as HD0.
  pose proof (proportion_bounds c1 n1 V alpha Ha H1 HV) as Hp1.
  pose proof (proportion_bounds c0 n0 V alpha Ha H0 HV) as Hp0.
  pose proof (odds_pos _ Hp1) as Ho1. pose proof (odds_pos _ Hp0) as Ho0.
  unfold Spec.log_odds, Spec.proportion in *. unfold EPS.
  set (p1 := ((cnt c1 + alpha) / (cnt n1 + alpha * cnt V))%R) in *.
  set (p0 := ((cnt c0 + alpha) / (cnt n0 + alpha * cnt V))%R) in *.
  rewrite (fdiv_Ok (cnt c1 + alpha)) by lra. rewrite bind_Ok.
  rewrite (fdiv_Ok (cnt c0 + alpha)) by lra. rewrite bind_Ok.
  fold p1 p0.
  rewrite (fdiv_Ok p1) by lra. rewrite bind_Ok.
  rewrite (math_log_Ok (p1 / _)) by done. rewrite bind_Ok.
  rewrite (fdiv_Ok p0) by lra. rewrite bind_Ok.
  rewrite (math_log_Ok (p0 / _)) by done. rewrite bind_Ok.
  reflexivity.
Qed.

(** What a run of the loop adds to [out], whatever [alpha] is. *)
Lemma rank_loop_inv (ws : list str) (one rest : Counter) (alpha : R)
    (min_count : Z) (n1 n0 V : nat) (out out' : list entry) :
  rank_loop ws one rest alpha min_count n1 n0 V out = Ok out' ->
  exists new,
    out' = out ++ new
    /\ List.map e_kw new = List.filter (Spec.gate one min_count) ws
    /\ Forall (fun e => e_c1 e = get one (e_kw e)
                        /\ e_c0 e = get rest (e_kw e)
                        /\ score (e_c1 e) (e_c0 e) n1 n0 V alpha
                           = Ok (e_score e)) new.
Proof.
  revert out. induction ws as [|w ws IH]; intros out; cbn [rank_loop].
  - intros [= <-]. exists []. by rewrite app_nil_r.
  - cbn [List.filter]. unfold Spec.gate at 1.
    destruct (Z.ltb_spec (Z.of_nat (get one w)) min_count) as [Hlt|Hge].
    + destruct (Z.leb_spec min_count (Z.of_nat (get one w))); [lia|].
      apply IH.
    + destruct (Z.leb_spec min_count (Z.of_nat (get one w))); [|lia].
      intros (s & Hs & Hloop)%bind_Ok_inv.
      apply IH in Hloop as (new & -> & Hkw & Hall).
      exists ((w, s, get one w, get rest w) :: new).
      rewrite <- app_assoc. split; [done|].
      split; [cbn [List.map]; by rewrite Hkw|].
      constructor; [|done]. by cbn.
Qed.

(** The loop does not fail when every score it needs is defined. *)
Lemma rank_loop_Ok (ws : list str) (one rest : Counter) (alpha : R)
    (min_count : Z) (n1 n0 V : nat) (out : list entry) (f : str -> R) :
  (forall w, In w ws -> Spec.gate one min_count w = true ->
     score (get one w) (get rest w) n1 n0 V alpha = Ok (f w)) ->
  rank_loop ws one rest alpha min_count n1 n0 V out
  = Ok (out ++ List.map (fun w => (w, f w, get one w, get rest w))
                 (List.filter (Spec.gate one min_count) ws)).
Proof.
  revert out. induction ws as [|w ws IH]; intros out Hf; cbn [rank_loop].
  - by rewrite app_nil_r.
  - cbn [List.filter]. pose proof (Hf w (or_introl eq_refl)) as Hw.
    unfold Spec.gate at 1 in Hw. unfold Spec.gate at 1.
    destruct (Z.ltb_spec (Z.of_nat (get one w)) min_count) as [Hlt|Hge].
    + destruct (Z.leb_spec min_count (Z.of_nat (get one w))); [lia|].
      apply IH. intros w' Hin. apply Hf. by right.
    + destruct (Z.leb_spec min_count (Z.of_nat (get one w))); [|lia].
      rewrite Hw by done. rewrite bind_Ok.
      rewrite IH by (intros w' Hin; apply Hf; by right).
      by rewrite <- app_assoc.
Qed.

Lemma vocab_order (one rest : Counter) :
  set_union_order (keys one) (keys rest) (Spec.vocab one rest).
Proof.
  unfold set_union_order, Spec.vocab. split; [apply NoDup_remove_dups|].
  intros w. rewrite In_elem_of, elem_of_remove_dups, <- In_elem_of.
  apply in_app_iff.
Qed.

Lemma set_union_order_perm (a b ws ws' : list str) :
  set_union_order a b ws -> set_union_order a b ws' -> Permutation ws ws'.
Proof.
  intros [Hnd H] [Hnd' H']. apply NoDup_Permutation; [done..|].
  intros w. rewrite <- !In_elem_of, H, H'. done.
Qed.

Lemma set_union_order_length (one rest : Counter) (ws : list str) :
  set_union_order (keys one) (keys rest) ws ->
  length ws = length (Spec.vocab one rest).
Proof.
  intros H. apply Permutation_length.
  eapply set_union_order_perm; [done | apply vocab_order].
Qed.

Lemma len_or_1 (n : nat) :
  match n with O => 1%nat | S _ => n end = Nat.max n 1.
Proof. destruct n; lia. Qed.

Lemma score_entry (one rest : Counter) (alpha : R) (w : str) :
  (0 < alpha)%R ->
  score (get one w) (get rest w) (sum (values one)) (sum (values rest))
    (Nat.max (length (Spec.vocab one rest)) 1) alpha
  = Ok (Spec.score one rest alpha w).
Proof.
  intros Ha. apply score_Ok; [done | apply get_le_sum.. | lia].
Qed.

(** For a positive [alpha] a run does not fail, and returns the first
    [topn] of the entries of the tokens that pass the gate, sorted. *)
Lemma log_odds_dirichlet_on_Ok (ws : list str) (one rest : Counter)
    (alpha : R) (topn min_count : Z) :
  (0 < alpha)%R -> set_union_order (keys one) (keys rest) ws ->
  rank_loop ws one rest alpha min_count (sum (values one))
    (sum (values rest)) (Nat.max (length (Spec.vocab one rest)) 1) []
  = Ok (List.map (Spec.entry_of one rest alpha)
          (List.filter (Spec.gate one min_count) ws))
  /\ log_odds_dirichlet_on ws one rest alpha topn min_count
     = Ok (slice_to
             (sort_desc by_score
                (List.map (Spec.entry_of one rest alpha)
                   (List.filter (Spec.gate one min_count) ws)))
             topn).
Proof.
  intros Ha Hws.
  assert (Hloop :
    rank_loop ws one rest alpha min_count (sum (values one))
      (sum (values rest)) (Nat.max (length (Spec.vocab one rest)) 1) []
    = Ok (List.map (Spec.entry_of one rest alpha)
            (List.filter (Spec.gate one min_count) ws))).
  { rewrite (rank_loop_Ok _ _ _ _ _ _ _ _ _ (Spec.score one rest alpha)).
    - reflexivity.
    - intros w _ _. by apply score_entry. }
  split; [done|].
  unfold log_odds_dirichlet_on.
  rewrite len_or_1, (set_union_order_length one rest ws Hws), Hloop.
  reflexivity.
Qed.

Lemma filter_gate_In (one : Counter) (min_count : Z) (ws : list str)
    (w : str) :
  In w (List.filter (Spec.gate one min_count) ws)
  <-> In w ws /\ (min_count <= Z.of_nat (get one w))%Z.
Proof. rewrite filter_In. unfold Spec.gate. by rewrite Z.leb_le. Qed.

(** The entries of a run that returns, whatever [alpha] is. *)
Lemma log_odds_dirichlet_on_inv (ws : list str) (one rest : Counter)
    (alpha : R) (topn min_count : Z) (out : list entry) :
  log_odds_dirichlet_on ws one rest alpha topn min_count = Ok out ->
  exists cands,
    out = slice_to (sort_desc by_score cands) topn
    /\ List.map e_kw cands = List.filter (Spec.gate one min_count) ws
    /\ Forall (fun e => e_c1 e = get one (e_kw e)
                        /\ e_c0 e = get rest (e_kw e)) cands.
Proof.
  unfold log_odds_dirichlet_on.
  intros (cands & Hloop & [= <-])%bind_Ok_inv.
  apply rank_loop_inv in Hloop as (new & -> & Hkw & Hall).
  exists new. split; [done|]. split; [done|].
  eapply List.Forall_impl; [|exact Hall]. intros e (? & ? & _). by split.
Qed.

(** The entries of a run for a positive [alpha]. *)
Lemma log_odds_dirichlet_entries (one rest : Counter) (alpha : R)
    (topn min_count : Z) (res : result (list entry)) :
  (0 < alpha)%R ->
  log_odds_dirichlet one rest alpha topn min_count res ->
  exists ws out,
    set_union_order (keys one) (keys rest) ws
    /\ res = Ok out
    /\ out = slice_to
               (sort_desc by_score
                  (List.map (Spec.entry_of one rest alpha)
                     (List.filter (Spec.gate one min_count) ws)))
               topn
    /\ Forall (fun e =>
                 In (e_kw e) (Spec.vocab one rest)
                 /\ (min_count <= Z.of_nat (get one (e_kw e)))%Z
                 /\ e = Spec.entry_of one rest alpha (e_kw e)) out.
Proof.
  intros Ha (ws & Hws & Hres).
  destruct (log_odds_dirichlet_on_Ok ws one rest alpha topn min_count
              Ha Hws) as [_ Hon].
  rewrite Hon in Hres. subst res.
  eexists ws, _. split; [done|].
  split; [reflexivity|]. split; [reflexivity|].
  apply List.Forall_forall. intros e He.
  apply slice_to_In in He.
  apply (Permutation_in _ (sort_desc_perm by_score _)) in He.
  apply in_map_iff in He as (w & <- & Hw).
  apply filter_gate_In in Hw as [Hw Hg]. cbn.
  split; [|done].
  eapply Permutation_in; [|exact Hw].
  eapply set_union_order_perm; [done | apply vocab_order].
Qed.


(** C4, amended: the sequence a run returns is sorted by score in
    descending order, has at most [topn] entries when [topn] is not
    negative, and holds only tokens whose target count is at least
    [min_count]; the rest count is no gate: when [topn] covers the
    vocabulary, every token of the vocabulary with such a target count is
    returned, with its rest count. *)
Theorem log_odds_dirichlet_sorted (one rest : Counter) (alpha : R)
    (topn min_count : Z) (out : list entry) :
  log_odds_dirichlet one rest alpha topn min_count (Ok out) ->
  Spec.by_score_desc out
  /\ ((0 <= topn)%Z -> (Z.of_nat (length out) <= topn)%Z)
  /\ Forall (fun e => (min_count <= Z.of_nat (get one (e_kw e)))%Z
                      /\ e_c1 e = get one (e_kw e)) out
  /\ ((Z.of_nat (length (Spec.vocab one rest)) <= topn)%Z ->
      forall w, In w (Spec.vocab one rest) ->
        (min_count <= Z.of_nat (get one w))%Z ->
        exists e, In e out /\ e_kw e = w /\ e_c0 e = get rest w).
Proof.
  intros (ws & Hws & Hres).
  apply log_odds_dirichlet_on_inv in Hres as (cands & -> & Hkw & Hall).
  split.
  { destruct (slice_to_take (sort_desc by_score cands) topn) as [k ->].
    apply StronglySorted_take, sort_by_score_sorted. }
  split; [apply slice_to_length|].
  assert (Hcand : forall e, In e cands ->
            In (e_kw e) ws /\ (min_count <= Z.of_nat (get one (e_kw e)))%Z
            /\ e_c1 e = get one (e_kw e) /\ e_c0 e = get rest (e_kw e)).
  { intros e He. rewrite List.Forall_forall in Hall.
    destruct (Hall e He) as [H1 H0].
    assert (Hin : In (e_kw e) (List.map e_kw cands)) by by apply in_map.
    rewrite Hkw in Hin. apply filter_gate_In in Hin. tauto. }
  split.
  - apply List.Forall_forall. intros e He. apply slice_to_In in He.
    apply (Permutation_in _ (sort_desc_perm by_score _)) in He.
    apply Hcand in He. tauto.
  - intros Htop w Hw Hg.
    assert (Hlen : length cands <= length (Spec.vocab one rest)).
    { rewrite <- (length_map e_kw), Hkw,
        <- (set_union_order_length one rest ws Hws).
      apply filter_length_le. }
    rewrite slice_to_all
      by (rewrite (Permutation_length (sort_desc_perm by_score cands)); lia).
    assert (Hin : In w (List.map e_kw cands)).
    { rewrite Hkw. apply filter_gate_In. split; [|done].
      eapply Permutation_in; [|exact Hw].
      eapply set_union_order_perm; [apply vocab_order | done]. }
    apply in_map_iff in Hin as (e & <- & He).
    exists e. split; [|split; [done | by apply Hcand]].
    eapply Permutation_in; [|exact He].
    symmetry. apply sort_desc_perm.
Qed.

Lemma log_odds_dirichlet_on_In (ws : list str) (one rest : Counter)
    (alpha : R) (topn min_count : Z) (w : str) :
  (Z.of_nat (length (Spec.vocab one rest)) <= topn)%Z ->
  set_union_order (keys one) (keys rest) ws ->
  In w ws -> (min_count <= Z.of_nat (get one w))%Z ->
  In (Spec.entry_of one rest alpha w)
    (slice_to
       (sort_desc by_score
          (List.map (Spec.entry_of one rest alpha)
             (List.filter (Spec.gate one min_count) ws)))
       topn).
Proof.
  intros Htop Hws Hw Hg.
  rewrite slice_to_all.
  - eapply Permutation_in; [symmetry; apply sort_desc_perm|].
    apply in_map. by apply filter_gate_In.
  - rewrite (Permutation_length (sort_desc_perm by_score _)), length_map.
    pose proof (filter_length_le (Spec.gate one min_count) ws).
    rewrite (set_union_order_length one rest ws Hws) in *. lia.
Qed.

Lemma entry_score_sign (one rest : Counter) (alpha : R) (w : str) :
  (0 < alpha)%R ->
  (0 < Spec.score one rest alpha w)%R
  <-> (Spec.p0 one rest alpha w < Spec.p1 one rest alpha w)%R.
Proof.
  intros Ha. unfold Spec.score.
  assert (H1 := proportion_bounds (get one w) (Spec.total one)
                  (Nat.max (length (Spec.vocab one rest)) 1) alpha Ha
                  (get_le_sum one w) ltac:(lia)).
  assert (H0 := proportion_bounds (get rest w) (Spec.total rest)
                  (Nat.max (length (Spec.vocab one rest)) 1) alpha Ha
                  (get_le_sum rest w) ltac:(lia)).
  fold (Spec.p1 one rest alpha w) in H1.
  fold (Spec.p0 one rest alpha w) in H0.
  rewrite <- (log_odds_lt_iff _ _ H0 H1). lra.
Qed.



(** ** The scenarios *)

Import Scenario.

Lemma scenario_run (topn : Z) :
  log_odds_dirichlet target rest (1 / 100)%R topn 2 (Ok (ranked topn)).
Proof.
  exists (Spec.vocab target rest). split; [apply vocab_order|].
  apply log_odds_dirichlet_on_Ok; [lra | apply vocab_order].
Qed.







Lemma scenario_gate (ws : list str) :
  set_union_order (keys target) (keys rest) ws ->
  Permutation (List.filter (Spec.gate target 2) ws) [hanok; jeongwon].
Proof.
  intros [Hnd Hin]. apply NoDup_Permutation.
  - apply NoDup_ListNoDup, List.NoDup_filter. by apply NoDup_ListNoDup.
  - vm_compute. repeat constructor; rewrite <- ?In_elem_of; simpl;
      intuition discriminate.
  - intros w. rewrite <- !In_elem_of, filter_gate_In, Hin. split.
    + intros [[Hw|Hw] Hg]; simpl in Hw.
      * destruct Hw as [<-|[<-|[]]]; simpl; auto.
      * destruct Hw as [<-|[<-|[]]];
          [simpl; auto | exfalso; vm_compute in Hg; by apply Hg].
    + intros [<-|[<-|[]]]; (split; [simpl; auto | vm_compute; discriminate]).
Qed.

Lemma jeongwon_score : (0 < Spec.score target rest (1 / 100) jeongwon)%R.
Proof. apply entry_score_sign; [lra|]. eval_counts. lra. Qed.

Lemma hanok_below_jeongwon :
  (Spec.score target rest (1 / 100) hanok
   < Spec.score target rest (1 / 100) jeongwon)%R.
Proof.
  unfold Spec.score, Spec.log_odds. eval_counts.
  match goal with
  | |- (ln ?a1 - ln ?a0 < ln ?b1 - ln ?b0)%R =>
      assert (H1 : (0 < a1)%R) by lra; assert (H2 : (0 < a0)%R) by lra;
      assert (H3 : (0 < b1)%R) by lra; assert (H4 : (0 < b0)%R) by lra;
      enough (ln (a1 * b0) < ln (b1 * a0))%R
        by (rewrite !ln_mult in * by done; lra);
      apply ln_increasing; [nra | lra]
  end.
Qed.

Lemma scenario_sorted (ws : list str) :
  set_union_order (keys target) (keys rest) ws ->
  sort_desc by_score
    (List.map (Spec.entry_of target rest (1 / 100)%R)
       (List.filter (Spec.gate target 2) ws))
  = [Spec.entry_of target rest (1 / 100)%R jeongwon;
     Spec.entry_of target rest (1 / 100)%R hanok].
Proof.
  intros Hws.
  set (l := sort_desc by_score _).
  assert (Hp : Permutation
                 [Spec.entry_of target rest (1 / 100)%R hanok;
                  Spec.entry_of target rest (1 / 100)%R jeongwon] l).
  { unfold l. rewrite sort_desc_perm.
    symmetry. apply (Permutation_map _ (scenario_gate ws Hws)). }
  pose proof (sort_by_score_sorted
                (List.map (Spec.entry_of target rest (1 / 100)%R)
                   (List.filter (Spec.gate target 2) ws))) as Hs.
  fold l in Hs.
  apply Permutation_length_2_inv in Hp as [Hl|Hl]; [|done].
  rewrite Hl in Hs. unfold Spec.by_score_desc in Hs.
  apply StronglySorted_inv in Hs as [_ Hs].
  apply Forall_inv in Hs. cbn in Hs.
  pose proof hanok_below_jeongwon. lra.
Qed.

(** C2: on the scenario, with [alpha = 0.01] and [min_count = 2], every
    run with [topn] at least 1 returns, and its output holds "정원" with a
    strictly positive score and does not hold "아파트". *)
Theorem scenario_ranking (topn : Z) (res : result (list entry)) :
  (1 <= topn)%Z ->
  log_odds_dirichlet target rest (1 / 100)%R topn 2 res ->
  exists out,
    res = Ok out
    /\ (exists e, In e out /\ e_kw e = jeongwon /\ (0 < e_score e)%R)
    /\ (forall e, In e out -> e_kw e <> apateu).
Proof.
  intros Htop Hrun.
  assert (Ha : (0 < 1 / 100)%R) by lra.
  destruct (log_odds_dirichlet_entries target rest (1 / 100)%R topn 2 _
              Ha Hrun) as (ws & out & Hws & -> & Hout & Hforall).
  exists out. split; [done|]. split.
  - exists (Spec.entry_of target rest (1 / 100)%R jeongwon).
    split; [|split; [reflexivity | apply jeongwon_score]].
    rewrite Hout, (scenario_sorted ws Hws). unfold slice_to.
    destruct (Z.leb_spec 0 topn); [|lia].
    destruct (Z.to_nat topn) as [|k] eqn:Hk; [lia|]. by left.
  - intros e He Hkw. rewrite List.Forall_forall in Hforall.
    destruct (Hforall e He) as (_ & Hg & _).
    rewrite Hkw in Hg. vm_compute in Hg. by destruct Hg.
Qed.

Lemma scenario_ranking_witness :
  ((1 <= 20)%Z
   /\ log_odds_dirichlet target rest (1 / 100)%R 20 2 (Ok (ranked 20)))
  /\ exists out,
       Ok (ranked 20) = Ok out
       /\ (exists e, In e out /\ e_kw e = jeongwon /\ (0 < e_score e)%R)
       /\ (forall e, In e out -> e_kw e <> apateu).
Proof.
  assert (Htop : (1 <= 20)%Z) by lia.
  split; [split; [exact Htop | apply scenario_run]|].
  exact (scenario_ranking 20 (Ok (ranked 20)) Htop (scenario_run 20)).
Defined.


Lemma log_odds_dirichlet_sorted_witness :
  log_odds_dirichlet target rest (1 / 100)%R 20 2 (Ok (ranked 20))
  /\ (Spec.by_score_desc (ranked 20)
      /\ ((0 <= 20)%Z -> (Z.of_nat (length (ranked 20)) <= 20)%Z)
      /\ Forall (fun e => (2 <= Z.of_nat (get target (e_kw e)))%Z
                          /\ e_c1 e = get target (e_kw e)) (ranked 20)
      /\ ((Z.of_nat (length (Spec.vocab target rest)) <= 20)%Z ->
          forall w, In w (Spec.vocab target rest) ->
            (2 <= Z.of_nat (get target w))%Z ->
            exists e, In e (ranked 20) /\ e_kw e = w
                      /\ e_c0 e = get rest w)).
Proof.
  split; [apply scenario_run|].
  exact (log_odds_dirichlet_sorted target rest (1 / 100)%R 20 2 (ranked 20)
           (scenario_run 20)).
Defined.

(** C4 fails for a negative [topn]: on the scenario with [topn = -1] a
    run returns one entry, and 1 is not at most -1. *)
Lemma negative_topn_length :
  exists out,
    log_odds_dirichlet target rest (1 / 100)%R (-1) 2 (Ok out)
    /\ length out = 1%nat
    /\ ~ (Z.of_nat (length out) <= -1)%Z.
Proof.
  exists (ranked (-1)). split; [apply scenario_run|].
  assert (H : length (ranked (-1)) = 1%nat).
  { unfold ranked. rewrite (scenario_sorted _ (vocab_order target rest)).
    reflexivity. }
  split; [done|]. rewrite H. lia.
Qed.

(** ** The ranker on the store *)

Lemma rank_loop_st_run (ws : list str) (one rest : Heap.ref) (alpha : R)
    (min_count : Z) (n1 n0 V : nat) (out : list entry) (h : Heap.heap) :
  Heap.rank_loop_st ws one rest alpha min_count n1 n0 V out h
  = (rank_loop ws (h one) (h rest) alpha min_count n1 n0 V out, h).
Proof.
  revert out. induction ws as [|w ws IH]; intros out;
    cbn [Heap.rank_loop_st rank_loop]; [reflexivity|].
  unfold Heap.bind at 1. unfold Heap.counter_get at 1.
  unfold Heap.bind at 1. unfold Heap.counter_get at 1.
  destruct (Z.of_nat (get (h one) w) <? min_count)%Z; [apply IH|].
  unfold Heap.bind, Heap.lift.
  destruct (score (get (h one) w) (get (h rest) w) n1 n0 V alpha) as [s|e];
    [|reflexivity].
  rewrite bind_Ok. apply IH.
Qed.

(** The store has a method that writes: [r += other] changes [r]. *)
Lemma counter_iadd_writes :
  let h : Heap.heap := fun r => if Nat.eqb r 1 then Scenario.rest else [] in
  snd (Heap.counter_iadd 0 1 h) 0%nat = Scenario.rest
  /\ h 0%nat = [].
Proof. split; reflexivity. Qed.

(** C10: a call of the ranker on two counters of the store, be they the
    same object or not, leaves the whole store as it was, whatever the
    parameters and whether it returns or raises; what it returns is the
    result of the ranker on the two counters. *)
Theorem log_odds_dirichlet_frame
    (vocab_order : list str -> list str -> list str) (one rest : Heap.ref)
    (alpha : R) (topn min_count : Z) (h : Heap.heap) :
  snd (Heap.log_odds_dirichlet_st vocab_order one rest alpha topn
         min_count h) = h
  /\ fst (Heap.log_odds_dirichlet_st vocab_order one rest alpha topn
            min_count h)
     = log_odds_dirichlet_on
         (vocab_order (keys (h one)) (keys (h rest)))
         (h one) (h rest) alpha topn min_count.
Proof.
  unfold Heap.log_odds_dirichlet_st, log_odds_dirichlet_on.
  cbv beta iota zeta
    delta [Heap.bind Heap.counter_keys Heap.counter_values Heap.ret].
  rewrite rank_loop_st_run.
  destruct (rank_loop _ _ _ _ _ _ _ _ _) as [out|e]; split; reflexivity.
Qed.

(** ** Counters and the payload *)

Lemma str_eqb_sym (a b : str) : str_eqb a b = str_eqb b a.
Proof.
  destruct (str_eqb b a) eqn:H.
  - apply str_eqb_true in H as ->. apply str_eqb_refl.
  - apply str_eqb_false. apply str_eqb_false in H. congruence.
Qed.

Lemma first_occurrences_In (toks : list str) (w : str) :
  In w (Spec.first_occurrences toks) <-> In w toks.
Proof.
  induction toks as [|t toks IH]; cbn [Spec.first_occurrences]; [done|].
  cbn [In]. rewrite filter_In, IH, negb_true_iff, str_eqb_false.
  destruct (decide (t = w)); intuition congruence.
Qed.

Lemma first_occurrences_NoDup (toks : list str) :
  List.NoDup (Spec.first_occurrences toks).
Proof.
  induction toks as [|t toks IH]; cbn [Spec.first_occurrences];
    constructor.
  - rewrite filter_In, negb_true_iff, str_eqb_false. tauto.
  - by apply List.NoDup_filter.
Qed.

Lemma filter_all {A} (p : A -> bool) (l : list A) :
  (forall x, In x l -> p x = true) -> List.filter p l = l.
Proof.
  induction l as [|x l IH]; intros H; cbn [List.filter]; [done|].
  rewrite (H x) by by left. f_equal. apply IH. intros y Hy. apply H.
  by right.
Qed.

Lemma first_occurrences_snoc (toks : list str) (w : str) :
  Spec.first_occurrences (toks ++ [w])
  = if decide (w ∈ toks) then Spec.first_occurrences toks
    else Spec.first_occurrences toks ++ [w].
Proof.
  induction toks as [|t toks IH]; cbn [Spec.first_occurrences app].
  - destruct (decide (w ∈ [])) as [H|]; [|done]. by apply elem_of_nil in H.
  - rewrite IH.
    destruct (decide (w ∈ toks)) as [Hin|Hin];
      destruct (decide (w ∈ t :: toks)) as [Hin'|Hin'];
      rewrite elem_of_cons in Hin'; try tauto; try done.
    + rewrite List.filter_app. cbn [List.filter].
      destruct Hin' as [->|]; [|done].
      by rewrite str_eqb_refl, app_nil_r.
    + rewrite List.filter_app. cbn [List.filter].
      replace (str_eqb w t) with false; [done|].
      symmetry. apply str_eqb_false. intros ->. tauto.
Qed.

Lemma incr_map (f : str -> nat) (l : list str) (w : str) (n : nat) :
  List.NoDup l ->
  incr (List.map (fun x => (x, f x)) l) w n
  = if decide (w ∈ l)
    then List.map
           (fun x => (x, (f x + if str_eqb x w then n else 0)%nat)) l
    else List.map (fun x => (x, f x)) l ++ [(w, n)].
Proof.
  induction 1 as [|x l Hx Hnd IH]; cbn [List.map incr].
  - destruct (decide (w ∈ [])) as [H|]; [|done]. by apply elem_of_nil in H.
  - destruct (str_eqb x w) eqn:Hxw.
    + apply str_eqb_true in Hxw as ->.
      destruct (decide (w ∈ w :: l)) as [_|Hn];
        [|exfalso; apply Hn; by left].
      f_equal. apply map_ext_in. intros y Hy.
      replace (str_eqb y w) with false; [by rewrite Nat.add_0_r|].
      symmetry. apply str_eqb_false. intros ->. tauto.
    + apply str_eqb_false in Hxw. rewrite IH, Nat.add_0_r.
      destruct (decide (w ∈ l)) as [Hin|Hin];
        destruct (decide (w ∈ x :: l)) as [Hin'|Hin'];
        rewrite elem_of_cons in Hin'; try done.
      * exfalso. apply Hin'. by right.
      * destruct Hin' as [->|]; done.
Qed.

Lemma occurrences_snoc (toks : list str) (w x : str) :
  Spec.occurrences (toks ++ [w]) x
  = (Spec.occurrences toks x + if str_eqb x w then 1 else 0)%nat.
Proof.
  unfold Spec.occurrences. rewrite List.filter_app, length_app.
  cbn [List.filter]. rewrite (str_eqb_sym w x). by destruct (str_eqb x w).
Qed.

Lemma occurrences_0 (toks : list str) (w : str) :
  ~ In w toks -> Spec.occurrences toks w = 0%nat.
Proof.
  unfold Spec.occurrences. induction toks as [|t toks IH]; [done|].
  cbn [In List.filter]. intros H.
  replace (str_eqb t w) with false; [tauto|].
  symmetry. apply str_eqb_false. tauto.
Qed.

Lemma occurrences_pos (toks : list str) (w : str) :
  In w toks -> (1 <= Spec.occurrences toks w)%nat.
Proof.
  unfold Spec.occurrences. induction toks as [|t toks IH]; [done|].
  cbn [In List.filter]. intros [->|H].
  - rewrite str_eqb_refl. simpl. lia.
  - destruct (str_eqb t w); simpl; [lia | tauto].
Qed.

Lemma incr_frequencies (toks : list str) (w : str) :
  incr (Spec.frequencies toks) w 1 = Spec.frequencies (toks ++ [w]).
Proof.
  unfold Spec.frequencies.
  rewrite incr_map by apply first_occurrences_NoDup.
  rewrite first_occurrences_snoc.
  destruct (decide (w ∈ Spec.first_occurrences toks)) as [Hin|Hin];
    destruct (decide (w ∈ toks)) as [Hin'|Hin'];
    rewrite <- In_elem_of in Hin, Hin';
    rewrite first_occurrences_In in Hin; try tauto.
  - apply map_ext. intros x. by rewrite occurrences_snoc.
  - rewrite map_app. cbn [List.map]. f_equal.
    + apply map_ext_in. intros x Hx. rewrite occurrences_snoc.
      replace (str_eqb x w) with false; [by rewrite Nat.add_0_r|].
      symmetry. apply str_eqb_false. intros ->.
      rewrite first_occurrences_In in Hx. tauto.
    + rewrite occurrences_snoc, str_eqb_refl.
      rewrite occurrences_0; [reflexivity | exact Hin'].
Qed.

(** [Counter(toks)] is the table of raw frequencies, in the order of the
    first occurrences. *)
Lemma count_frequencies (toks : list str) :
  count toks = Spec.frequencies toks.
Proof.
  unfold count. induction toks as [|w toks IH] using rev_ind; [done|].
  rewrite fold_left_app. cbn [fold_left]. rewrite IH.
  apply incr_frequencies.
Qed.

Lemma most_common_take (c : Counter) (n : Z) :
  most_common c n
  = take (Z.to_nat n) (sort_desc (fun y x => (snd y <=? snd x)%nat) c).
Proof.
  unfold most_common. destruct (Z.leb_spec n 0); [|done].
  by replace (Z.to_nat n) with 0%nat by lia.
Qed.

Lemma sort_by_count_sorted (c : list (str * nat)) :
  Spec.by_count_desc (sort_desc (fun y x => (snd y <=? snd x)%nat) c).
Proof.
  unfold Spec.by_count_desc.
  eapply StronglySorted_mono; [|apply sort_desc_sorted].
  - intros a b. unfold desc. by rewrite Nat.leb_le.
  - intros x y. rewrite Nat.leb_gt, Nat.leb_le. lia.
  - intros x y z. rewrite !Nat.leb_le. lia.
Qed.

Lemma dict_get_set_eq {V} (d : dict V) (k : str) (v : V) :
  dict_get (dict_set d k v) k = Ok v.
Proof.
  induction d as [|[k' v'] d IH]; cbn [dict_set dict_get].
  - by rewrite str_eqb_refl.
  - destruct (str_eqb k' k) eqn:Hk; cbn [dict_get]; by rewrite Hk.
Qed.

Lemma dict_set_has {V} (d : dict V) (k k' : str) (v : V) :
  (exists v', dict_get d k' = Ok v') \/ k' = k ->
  exists v', dict_get (dict_set d k v) k' = Ok v'.
Proof.
  intros [[v' Hv']| ->]; [|eexists; apply dict_get_set_eq].
  induction d as [|[k0 v0] d IH]; cbn [dict_set dict_get] in *; [done|].
  destruct (str_eqb k0 k) eqn:Hk; cbn [dict_get];
    destruct (str_eqb k0 k') eqn:Hk'; eauto.
Qed.

Section Payload.
Context {db : UnicodeDB}.
Variable analyze : str -> list (list morph * R).
Variable vocab_order : Counter -> Counter -> list str.

Lemma extend_nouns_Ok (ss : list str) (toks : list str) :
  extend_nouns analyze ss toks
  = Ok (toks ++ List.concat (List.map (Spec.tokenize analyze) ss)).
Proof.
  revert toks. induction ss as [|s ss IH]; intros toks;
    cbn [extend_nouns List.map List.concat].
  - by rewrite app_nil_r.
  - rewrite nouns_only_tokenize, bind_Ok, IH. by rewrite <- app_assoc.
Qed.

Lemma build_counters_Ok (ds : list str) (tmp : list (value * str))
    (c0 : dict Counter) :
  exists counters,
    build_counters analyze ds tmp c0 = Ok counters
    /\ forall k, In k ds \/ (exists v, dict_get c0 k = Ok v) ->
         exists v, dict_get counters k = Ok v.
Proof.
  revert c0. induction ds as [|d ds IH]; intros c0; cbn [build_counters].
  - exists c0. split; [done|]. intros k [[]|H]. done.
  - rewrite extend_nouns_Ok, bind_Ok.
    destruct (IH (dict_set c0 d (count
                ([] ++ List.concat
                         (List.map (Spec.tokenize analyze)
                            (texts_of tmp d)))))) as (cs & Hcs & Hk).
    exists cs. split; [done|].
    intros k [[<-|Hin]|Hv]; apply Hk; auto.
    + right. apply dict_set_has. by right.
    + right. apply dict_set_has. by left.
Qed.

Lemma pool_rest_Ok (others : list str) (dist : str)
    (counters : dict Counter) (rest : Counter) :
  (forall o, In o others -> exists c, dict_get counters o = Ok c) ->
  exists r, pool_rest others dist counters rest = Ok r.
Proof.
  revert rest. induction others as [|o others IH]; intros rest H;
    cbn [pool_rest]; [eauto|].
  assert (H' : forall o', In o' others ->
            exists c, dict_get counters o' = Ok c)
    by (intros; apply H; by right).
  destruct (negb (str_eqb o dist)); [|by apply IH].
  destruct (H o (or_introl eq_refl)) as [c ->]. rewrite bind_Ok.
  by apply IH.
Qed.

Lemma log_odds_dirichlet_on_total (ws : list str) (one rest : Counter)
    (alpha : R) (topn min_count : Z) :
  (0 < alpha)%R ->
  exists out, log_odds_dirichlet_on ws one rest alpha topn min_count = Ok out.
Proof.
  intros Ha. unfold log_odds_dirichlet_on.
  erewrite rank_loop_Ok; [rewrite bind_Ok; eauto|].
  intros w _ _. apply score_Ok; [done | apply get_le_sum.. |].
  rewrite len_or_1. lia.
Qed.

Lemma rank_all_Ok (ds : list str) (counters : dict Counter)
    (topn min_count : Z) (res : dict (list item)) :
  (forall d, In d DISTRICTS -> exists c, dict_get counters d = Ok c) ->
  (forall d, In d ds -> exists c, dict_get counters d = Ok c) ->
  exists res',
    rank_all vocab_order ds counters topn min_count res = Ok res'.
Proof.
  intros HD. revert res. induction ds as [|d ds IH]; intros res H;
    cbn [rank_all]; [eauto|].
  destruct (H d (or_introl eq_refl)) as [one ->]. rewrite bind_Ok.
  destruct (pool_rest_Ok DISTRICTS d counters [] HD) as [rest ->].
  rewrite bind_Ok.
  destruct (log_odds_dirichlet_on_total (vocab_order one rest) one rest
              (1 / 100)%R topn min_count ltac:(lra)) as [ranked ->].
  rewrite bind_Ok. apply IH. intros d' Hd'. apply H. by right.
Qed.

Lemma texts_of_unclassified (df : DataFrame) :
  texts_of (tmp_of df) ETC
  = List.map (Spec.description df) (Spec.unclassified_rows df).
Proof.
  unfold texts_of, tmp_of, Spec.unclassified_rows, Spec.description.
  induction (rows df) as [|r rs IH]; cbn [List.map List.filter]; [done|].
  cbn [fst]. destruct (cell_is (district r) ETC); cbn [List.map snd];
    by rewrite IH.
Qed.

(** The payload of [build_district_keywords] and its entry for the
    unclassified bucket. *)
Lemma build_district_keywords_etc (df : DataFrame) (topn min_count : Z) :
  exists payload,
    build_district_keywords analyze vocab_order df topn min_count
    = Ok payload
    /\ dict_get payload ETC = Ok (Spec.unclassified_items analyze df topn).
Proof.
  unfold build_district_keywords.
  destruct (build_counters_Ok DISTRICTS (tmp_of df) []) as (cs & -> & Hcs).
  rewrite bind_Ok.
  assert (HD : forall d, In d DISTRICTS -> exists c, dict_get cs d = Ok c)
    by (intros d Hd; apply Hcs; by left).
  destruct (rank_all_Ok DISTRICTS cs topn min_count
              (List.map (fun d => (d, [])) DISTRICTS_WITH_ETC) HD HD)
    as [res ->].
  rewrite bind_Ok, extend_nouns_Ok, bind_Ok.
  eexists. split; [reflexivity|].
  rewrite dict_get_set_eq. f_equal.
  unfold Spec.unclassified_items, Spec.unclassified_tokens.
  rewrite app_nil_l, count_frequencies, most_common_take.
  rewrite texts_of_unclassified, List.map_map. reflexivity.
Qed.
End Payload.

Lemma frequencies_In (toks : list str) (kc : str * nat) :
  In kc (Spec.frequencies toks) ->
  In (fst kc) toks /\ snd kc = Spec.occurrences toks (fst kc)
  /\ (1 <= snd kc)%nat.
Proof.
  unfold Spec.frequencies. intros (w & <- & Hw)%in_map_iff.
  rewrite first_occurrences_In in Hw. cbn.
  split; [done|]. split; [done|]. by apply occurrences_pos.
Qed.

(** C5: for every data frame, analyzer, iteration order, [topn] and
    [min_count], [build_district_keywords] returns a payload, and its
    entry for the unclassified bucket is made from the tokens of the
    records of that bucket alone, without any comparison: their raw
    frequencies, in descending order, truncated to [topn], each with
    score 0.0 and with the number of occurrences of the token among the
    bucket's tokens as its count. *)
Theorem unclassified_bucket_policy {db : UnicodeDB}
    (analyze : str -> list (list morph * R))
    (vocab_order : Counter -> Counter -> list str)
    (df : DataFrame) (topn min_count : Z) :
  exists payload items,
    build_district_keywords analyze vocab_order df topn min_count
    = Ok payload
    /\ dict_get payload ETC = Ok items
    /\ items = Spec.unclassified_items analyze df topn
    /\ Forall (fun it =>
                 score_ it = 0%R
                 /\ In (kw it) (Spec.unclassified_tokens analyze df)
                 /\ cnt_ it
                    = Spec.occurrences
                        (Spec.unclassified_tokens analyze df) (kw it))
         items
    /\ StronglySorted (fun a b => (cnt_ b <= cnt_ a)%nat) items
    /\ (length items <= Z.to_nat topn)%nat.
Proof.
  destruct (build_district_keywords_etc analyze vocab_order df topn
              min_count) as (payload & Hp & Hetc).
  exists payload, (Spec.unclassified_items analyze df topn).
  split; [done|]. split; [done|]. split; [done|].
  unfold Spec.unclassified_items.
  set (toks := Spec.unclassified_tokens analyze df).
  set (sorted := sort_desc _ (Spec.frequencies toks)).
  split; [|split].
  - apply List.Forall_forall. intros it (kc & <- & Hkc)%in_map_iff. cbn.
    split; [done|].
    assert (Hin : In kc (Spec.frequencies toks)).
    { eapply Permutation_in; [apply sort_desc_perm|].
      apply In_elem_of. eapply subseteq_take. apply In_elem_of, Hkc. }
    apply frequencies_In in Hin. tauto.
  - pose proof (sort_by_count_sorted (Spec.frequencies toks)) as Hs.
    fold sorted in Hs. unfold Spec.by_count_desc in Hs.
    apply (StronglySorted_take _ (Z.to_nat topn)) in Hs.
    induction Hs as [|kc l Hs IH Hall]; cbn [List.map]; constructor;
      [done|].
    apply List.Forall_forall. intros it (kc' & <- & Hkc')%in_map_iff.
    rewrite List.Forall_forall in Hall. cbn. by apply Hall.
  - rewrite length_map, length_take. lia.
Qed.

(** ** The text normalizer *)

Section Normalizer.
Context {db : UnicodeDB}.

Lemma space_U0020 : is_space 32%N = true.
Proof. by rewrite is_space_ascii. Qed.

Lemma decimal_U0035 : is_decimal 53%N = true.
Proof. by rewrite is_decimal_ascii. Qed.

Lemma punct_U0020 : punct 32%N = false.
Proof. unfold punct. by rewrite space_U0020, orb_true_r. Qed.

Lemma digit_free_tail (c : char) (s : str) :
  Spec.digit_free (c :: s) -> Spec.digit_free s.
Proof. intros H. by apply Forall_inv_tail in H. Qed.

(** *** Patterns that need a digit match nothing in a text without one *)

Lemma rep_none (p : char -> bool) (lo : nat) (hi : option nat)
    (prev : option char) (s : str) (n : nat) (k : cont) :
  (forall prev' s' n', Spec.digit_free s' -> k prev' s' n' = None) ->
  Spec.digit_free s -> rep p lo hi prev s n k = None.
Proof.
  intros Hk. revert lo hi prev n.
  induction s as [|c s IH]; intros lo hi prev n Hs; cbn [rep].
  - destruct lo; [by apply Hk | done].
  - assert (Hstop : match lo with
                    | O => k prev (c :: s) n
                    | S _ => None
                    end = None)
      by (destruct lo; [by apply Hk | done]).
    destruct hi as [[|h]|]; [done| |];
      (destruct (p c); [|done]);
      rewrite IH by (by eapply digit_free_tail); done.
Qed.

Lemma rep_decimal_none (lo : nat) (hi : option nat) (prev : option char)
    (s : str) (n : nat) (k : cont) :
  Spec.digit_free s -> rep is_decimal (S lo) hi prev s n k = None.
Proof.
  intros Hs. destruct s as [|c s]; cbn [rep]; [done|].
  apply Forall_inv in Hs. rewrite Hs. by destruct hi as [[|h]|].
Qed.

Lemma m_none (r : regex) (prev : option char) (s : str) (n : nat)
    (k : cont) :
  (forall prev' s' n', Spec.digit_free s' -> k prev' s' n' = None) ->
  Spec.digit_free s -> m r prev s n k = None.
Proof.
  revert prev s n k.
  induction r as [|c|p|r1 IH1 r2 IH2|r1 IH1 r2 IH2|r1 IH1|p lo hi|];
    intros prev s n k Hk Hs; cbn [m].
  - by apply Hk.
  - destruct s as [|c' s]; [done|]. destruct (char_eqb c c'); [|done].
    apply Hk. by eapply digit_free_tail.
  - destruct s as [|c' s]; [done|]. destruct (p c'); [|done].
    apply Hk. by eapply digit_free_tail.
  - apply IH1; [|done]. intros prev' s' n' Hs'. by apply IH2.
  - rewrite IH1 by done. by apply IH2.
  - rewrite IH1 by done. by apply Hk.
  - by apply rep_none.
  - destruct (at_boundary prev s); [by apply Hk | done].
Qed.

Lemma needs_digit_none (r : regex) :
  Spec.needs_digit r ->
  forall prev s n k, Spec.digit_free s -> m r prev s n k = None.
Proof.
  induction 1 as [lo hi r|r1 r2 _ IH]; intros prev s n k Hs; cbn [m].
  - by apply rep_decimal_none.
  - apply m_none; [|done]. intros prev' s' n' Hs'. by apply IH.
Qed.

Lemma RE_ORD_needs_digit : Spec.needs_digit RE_ORD.
Proof. unfold RE_ORD. do 2 apply Spec.nd_later. apply Spec.nd_here. Qed.

Lemma RE_YEAR_needs_digit : Spec.needs_digit RE_YEAR.
Proof. apply Spec.nd_here. Qed.

Lemma RE_NUM_needs_digit : Spec.needs_digit RE_NUM.
Proof. unfold RE_NUM. apply Spec.nd_later, Spec.nd_here. Qed.

Lemma main2_RE_NUM_needs_digit : Spec.needs_digit main2.RE_NUM.
Proof. unfold main2.RE_NUM. apply Spec.nd_later, Spec.nd_here. Qed.

(** *** Substitutions that change nothing *)

Lemma sub_go_no_match (P : str -> Prop) (r : regex) (repl : str) :
  (forall c s, P (c :: s) -> P s) ->
  (forall prev s, P s -> match_at r prev s = None) ->
  forall prev s, P s -> sub_go r repl prev s 0 = s.
Proof.
  intros Htail Hnone prev s. revert prev.
  induction s as [|c s IH]; intros prev Hs; cbn [sub_go]; [done|].
  rewrite Hnone by done. f_equal. apply IH. by eapply Htail.
Qed.

Lemma sub_needs_digit (r : regex) (repl s : str) :
  Spec.needs_digit r -> Spec.digit_free s -> sub r repl s = s.
Proof.
  intros Hr Hs. unfold sub.
  apply (sub_go_no_match Spec.digit_free); [apply digit_free_tail | | done].
  intros prev s' Hs'. by apply needs_digit_none.
Qed.

Lemma sub_punct_free (s : str) :
  Spec.punct_free s -> sub RE_PUNCT SPACE s = s.
Proof.
  intros Hs. unfold sub.
  apply (sub_go_no_match Spec.punct_free); [| | done].
  - intros c s' H. by apply Forall_inv_tail in H.
  - intros prev [|c s'] H; [done|]. apply Forall_inv in H.
    unfold match_at, RE_PUNCT. cbn [m]. by rewrite H.
Qed.

Lemma replace_go_no_match (c0 : char) (old new s : str) :
  Forall (fun c => char_eqb c0 c = false) s ->
  replace_go (c0 :: old) new s 0 = s.
Proof.
  induction 1 as [|c s Hc Hs IH]; cbn [replace_go startswith]; [done|].
  rewrite Hc. cbn [andb]. by rewrite IH.
Qed.

Lemma replace_digit_free (s : str) :
  Spec.digit_free s -> replace (u "5·18") (u "오월민주화") s = s.
Proof.
  intros Hs. unfold replace.
  change (u "5·18") with [53%N; 183%N; 49%N; 56%N].
  apply replace_go_no_match.
  eapply List.Forall_impl; [|exact Hs]. intros c Hc. cbn beta in Hc.
  unfold char_eqb. apply N.eqb_neq. intros <-.
  rewrite decimal_U0035 in Hc. discriminate.
Qed.
End Normalizer.

Section NormalForm.
Context {db : UnicodeDB}.

(** *** [RE_PUNCT] leaves no punctuation *)

Lemma sub_punct_out (prev : option char) (s : str) :
  Spec.punct_free (sub_go RE_PUNCT SPACE prev s 0).
Proof.
  revert prev. induction s as [|c s IH]; intros prev; cbn [sub_go];
    [constructor|].
  unfold match_at, RE_PUNCT. cbn [m].
  destruct (punct c) eqn:Hc.
  - cbn [SPACE app]. constructor; [apply punct_U0020 | apply IH].
  - constructor; [done | apply IH].
Qed.

(** *** [RE_MULTI] matches the longest run of white space *)

Lemma rep_span (p : char -> bool) (lo : nat) (prev : option char)
    (s : str) (n : nat) :
  rep p lo None prev s n (fun _ _ n => Some n)
  = if (lo <=? Spec.span p s)%nat then Some (n + Spec.span p s)%nat
    else None.
Proof.
  revert lo prev n. induction s as [|c s IH]; intros lo prev n;
    cbn [rep Spec.span dec_hi].
  - destruct lo; cbn [Nat.leb]; [f_equal; lia | done].
  - destruct (p c).
    + rewrite IH. destruct lo as [|lo]; cbn [pred Nat.leb].
      * f_equal. lia.
      * destruct (lo <=? Spec.span p s)%nat; [f_equal; lia | done].
    + destruct lo; cbn [Nat.leb]; [f_equal; lia | done].
Qed.

Lemma match_at_multi (prev : option char) (s : str) :
  match_at RE_MULTI prev s
  = match Spec.span is_space s with
    | O => None
    | S j => Some (S j)
    end.
Proof.
  unfold match_at, RE_MULTI. cbn [m]. rewrite rep_span.
  by destruct (Spec.span is_space s).
Qed.

Lemma sub_multi_space (prev : option char) (c : char) (s : str) :
  is_space c = true ->
  sub_go RE_MULTI SPACE prev (c :: s) 0
  = 32%N :: sub_go RE_MULTI SPACE (Some c) s (Spec.span is_space s).
Proof.
  intros Hc. cbn [sub_go]. rewrite match_at_multi. cbn [Spec.span].
  by rewrite Hc.
Qed.

Lemma sub_multi_other (prev : option char) (c : char) (s : str) :
  is_space c = false ->
  sub_go RE_MULTI SPACE prev (c :: s) 0
  = c :: sub_go RE_MULTI SPACE (Some c) s 0.
Proof.
  intros Hc. cbn [sub_go]. rewrite match_at_multi. cbn [Spec.span].
  by rewrite Hc.
Qed.

(** The text after a substitution of [RE_MULTI], from the start of a
    text and from inside a run of white space. *)
Lemma sub_multi_out (Q : char -> Prop) (s : str) :
  Q 32%N -> Forall Q s ->
  forall prev,
    (Spec.single_spaced (sub_go RE_MULTI SPACE prev s 0)
     /\ Forall Q (sub_go RE_MULTI SPACE prev s 0))
    /\ (Spec.single_spaced
          (sub_go RE_MULTI SPACE prev s (Spec.span is_space s))
        /\ Spec.head_not_space
             (sub_go RE_MULTI SPACE prev s (Spec.span is_space s))
        /\ Forall Q (sub_go RE_MULTI SPACE prev s (Spec.span is_space s))).
Proof.
  intros HQ. induction 1 as [|c s Hc Hs IH]; intros prev.
  { cbn. repeat split; constructor. }
  destruct (IH (Some c)) as [[IH1 IH2] (IH3 & IH4 & IH5)].
  destruct (is_space c) eqn:Hsp.
  - rewrite sub_multi_space by done. cbn [Spec.span]. rewrite Hsp.
    cbn [sub_go]. split; [|done].
    split; [|by constructor].
    cbn [Spec.single_spaced]. split; [|done]. intros _. by split.
  - rewrite sub_multi_other by done. cbn [Spec.span]. rewrite Hsp.
    rewrite sub_multi_other by done.
    assert (Hss : Spec.single_spaced
                    (c :: sub_go RE_MULTI SPACE (Some c) s 0)).
    { cbn [Spec.single_spaced]. split; [|done]. intros H. congruence. }
    split; [split; [done | by constructor]|].
    split; [done|]. split; [exact Hsp | by constructor].
Qed.

Lemma sub_multi_single_spaced (s : str) :
  Spec.single_spaced s -> sub RE_MULTI SPACE s = s.
Proof.
  unfold sub. generalize (@None char).
  induction s as [|c s IH]; intros prev Hs; [done|].
  cbn [Spec.single_spaced] in Hs. destruct Hs as [Hc Hs].
  destruct (is_space c) eqn:Hsp.
  - destruct (Hc eq_refl) as [-> Hhead].
    rewrite sub_multi_space by done.
    replace (Spec.span is_space s) with 0%nat
      by (destruct s as [|c' s]; [done|]; cbn in *; by rewrite Hhead).
    by rewrite IH.
  - rewrite sub_multi_other by done. by rewrite IH.
Qed.

(** *** [strip] *)

Lemma dropwhile_suffix (p : char -> bool) (s : str) :
  exists l, s = l ++ dropwhile p s.
Proof.
  induction s as [|c s [l IH]]; cbn [dropwhile]; [by exists []|].
  destruct (p c); [|by exists []].
  exists (c :: l). cbn. by rewrite <- IH.
Qed.

Lemma dropwhile_head (s : str) :
  Spec.head_not_space (dropwhile is_space s).
Proof.
  induction s as [|c s IH]; cbn [dropwhile]; [done|].
  destruct (is_space c) eqn:Hc; [done | exact Hc].
Qed.

Lemma dropwhile_id (s : str) :
  Spec.head_not_space s -> dropwhile is_space s = s.
Proof. destruct s as [|c s]; cbn; [done|]. by intros ->. Qed.

Lemma rstrip_prefix (s : str) : exists l, s = rstrip s ++ l.
Proof.
  unfold rstrip. destruct (dropwhile_suffix is_space (rev s)) as [l Hl].
  exists (rev l). rewrite <- rev_app_distr, <- Hl. by rewrite rev_involutive.
Qed.

Lemma single_spaced_tail (l s : str) :
  Spec.single_spaced (l ++ s) -> Spec.single_spaced s.
Proof.
  induction l as [|c l IH]; [done|]. cbn [app Spec.single_spaced].
  intros [_ H]. by apply IH.
Qed.

Lemma head_not_space_prefix (s l : str) :
  Spec.head_not_space (s ++ l) -> s <> [] -> Spec.head_not_space s.
Proof. by destruct s. Qed.

Lemma single_spaced_prefix (s l : str) :
  Spec.single_spaced (s ++ l) -> Spec.single_spaced s.
Proof.
  induction s as [|c s IH]; [done|]. cbn [app Spec.single_spaced].
  intros [Hc Hs]. split; [|by apply IH].
  intros Hsp. destruct (Hc Hsp) as [-> Hh]. split; [done|].
  destruct s; [done | exact Hh].
Qed.

(** What [strip] returns from a text that is single-spaced. *)
Lemma strip_out (Q : char -> Prop) (s : str) :
  Spec.single_spaced s -> Forall Q s ->
  Spec.single_spaced (strip s) /\ Forall Q (strip s)
  /\ Spec.head_not_space (strip s)
  /\ Spec.head_not_space (rev (strip s)).
Proof.
  intros Hs HQ. unfold strip, lstrip.
  destruct (dropwhile_suffix is_space s) as [l1 H1].
  destruct (rstrip_prefix (dropwhile is_space s)) as [l2 H2].
  set (t := dropwhile is_space s) in *.
  assert (Hss : Spec.single_spaced (rstrip t ++ l2)).
  { rewrite <- H2. apply (single_spaced_tail l1). by rewrite <- H1. }
  assert (HQt : Forall Q (rstrip t ++ l2)).
  { rewrite <- H2. rewrite H1 in HQ. by apply Forall_app in HQ as [_ HQ]. }
  split; [by eapply single_spaced_prefix|].
  split; [by apply Forall_app in HQt as [HQt _]|].
  split.
  - pose proof (dropwhile_head s) as Hh. fold t in Hh.
    rewrite H2 in Hh. by destruct (rstrip t).
  - unfold rstrip. rewrite rev_involutive. apply dropwhile_head.
Qed.

Lemma strip_id (s : str) :
  Spec.head_not_space s -> Spec.head_not_space (rev s) -> strip s = s.
Proof.
  intros H1 H2. unfold strip, lstrip, rstrip.
  rewrite (dropwhile_id s H1), (dropwhile_id _ H2).
  apply rev_involutive.
Qed.

(** *** One pass is enough when no digit is left *)

End NormalForm.


(** ** The normalizer on Korean text *)


Lemma clean_text_example :
  clean_text_for_kw (db := hangul_db)
    (VStr (u "제1회 광주  5·18 기념관, 1980년 개관!"))
  = u "광주 오월민주화 기념관 개관".
Proof. vm_compute. reflexivity. Qed.


(* ===================================================================== *)
(** * Part III: further properties of the code                            *)
(* ===================================================================== *)

(** ** The ranker at its edges *)

Lemma rank_loop_all_below (ws : list str) (one rest : Counter) (alpha : R)
    (min_count : Z) (n1 n0 V : nat) (out : list entry) :
  (forall w, In w ws -> (Z.of_nat (get one w) < min_count)%Z) ->
  rank_loop ws one rest alpha min_count n1 n0 V out = Ok out.
Proof.
  induction ws as [|w ws IH]; intros H; cbn [rank_loop]; [done|].
  destruct (Z.ltb_spec (Z.of_nat (get one w)) min_count) as [_|Hge].
  - apply IH. intros w' Hw'. apply H. by right.
  - specialize (H w (or_introl eq_refl)). lia.
Qed.

(** X1: when no token of the vocabulary reaches [min_count] in the target
    counter, the ranker returns the empty list for every [alpha] (also
    zero or negative) and every [topn]: no score is computed. *)
Theorem log_odds_dirichlet_nothing_gated (ws : list str)
    (one rest : Counter) (alpha : R) (topn min_count : Z) :
  (forall w, In w ws -> (Z.of_nat (get one w) < min_count)%Z) ->
  log_odds_dirichlet_on ws one rest alpha topn min_count = Ok [].
Proof.
  intros H. unfold log_odds_dirichlet_on.
  rewrite rank_loop_all_below by done. rewrite bind_Ok.
  cbn [sort_desc]. unfold slice_to.
  destruct (0 <=? topn)%Z; by rewrite take_nil.
Qed.

Lemma log_odds_dirichlet_nothing_gated_witness :
  (forall w, In w (Spec.vocab [] Scenario.rest) ->
     (Z.of_nat (get [] w) < 1)%Z)
  /\ log_odds_dirichlet_on (Spec.vocab [] Scenario.rest) [] Scenario.rest
       0%R 20 1 = Ok [].
Proof.
  assert (H : forall w, In w (Spec.vocab [] Scenario.rest) ->
            (Z.of_nat (get [] w) < 1)%Z) by (intros w _; cbn; lia).
  split; [exact H|].
  exact (log_odds_dirichlet_nothing_gated _ [] Scenario.rest 0%R 20 1 H).
Defined.

Lemma fdiv_Raise (a b : R) : b = 0%R -> fdiv a b = Raise ZeroDivisionError.
Proof. intros Hb. unfold fdiv. by destruct (Req_dec_T b 0). Qed.

Lemma math_log_Raise (x : R) : (x <= 0)%R -> math_log x = Raise ValueError.
Proof. intros Hx. unfold math_log. destruct (Rlt_dec 0 x); [lra | done]. Qed.

(** The exception the score raises without smoothing for a token that
    rest does not hold. *)
Lemma score_unsmoothed (c1 n1 n0 V : nat) :
  (1 <= c1)%nat -> (c1 <= n1)%nat ->
  score c1 0 n1 n0 V 0
  = Raise (if Nat.eqb n0 0 then ZeroDivisionError else ValueError).
Proof.
  intros H1 Hn. unfold score.
  pose proof (cnt_ge_1 c1 H1) as Hc. pose proof (cnt_le c1 n1 Hn) as Hcn.
  rewrite (fdiv_Ok (cnt c1 + 0)) by lra. rewrite bind_Ok.
  destruct n0 as [|n0]; cbn [Nat.eqb].
  - rewrite cnt_0. by rewrite (fdiv_Raise (0 + 0)) by lra.
  - pose proof (cnt_ge_1 (S n0) ltac:(lia)) as Hn0.
    rewrite (fdiv_Ok (cnt 0 + 0)) by lra. rewrite bind_Ok.
    set (p1 := ((cnt c1 + 0) / (cnt n1 + 0 * cnt V))%R).
    assert (Hp1 : (0 < p1 <= 1)%R).
    { unfold p1. split; [apply Rdiv_lt_0_compat; lra|].
      apply div_le_1; lra. }
    unfold EPS. rewrite (fdiv_Ok p1) by lra. rewrite bind_Ok.
    rewrite math_log_Ok by (apply Rdiv_lt_0_compat; lra). rewrite bind_Ok.
    rewrite cnt_0.
    replace ((0 + 0) / (cnt (S n0) + 0 * cnt V))%R with 0%R
      by (field; lra).
    rewrite (fdiv_Ok 0) by lra. rewrite bind_Ok.
    rewrite math_log_Raise; [done|].
    replace (0 / (1 - 0 + 1 / 1000000000000))%R with 0%R by (field; lra).
    lra.
Qed.

Lemma rank_loop_unsmoothed (ws : list str) (one rest : Counter)
    (min_count : Z) (V : nat) (out : list entry) (w : str) :
  (1 <= min_count)%Z ->
  In w ws -> (min_count <= Z.of_nat (get one w))%Z -> get rest w = 0%nat ->
  rank_loop ws one rest 0 min_count (sum (values one)) (sum (values rest))
    V out
  = Raise (if Nat.eqb (sum (values rest)) 0 then ZeroDivisionError
           else ValueError).
Proof.
  intros Hmc Hw Hg H0. revert out.
  induction ws as [|w' ws IH]; intros out; [done|]. cbn [rank_loop].
  destruct (Z.ltb_spec (Z.of_nat (get one w')) min_count) as [Hlt|Hge].
  - destruct Hw as [->|Hw]; [lia | by apply IH].
  - destruct (Nat.eq_dec (get rest w') 0) as [Hz|Hnz].
    + rewrite Hz, score_unsmoothed by (lia || apply get_le_sum). done.
    + destruct Hw as [->|Hw]; [done|].
      destruct (score _ _ _ _ _ _) as [s|e] eqn:Hs.
      * rewrite bind_Ok. by apply IH.
      * (* an earlier token fails: with the same exception *)
        exfalso. revert Hs. unfold score.
        pose proof (cnt_ge_1 (get one w') ltac:(lia)) as Hc1.
        pose proof (cnt_le _ _ (get_le_sum one w')) as Hc1n.
        pose proof (cnt_ge_1 (get rest w') ltac:(lia)) as Hc0.
        pose proof (cnt_le _ _ (get_le_sum rest w')) as Hc0n.
        rewrite (fdiv_Ok (cnt (get one w') + 0)) by lra. rewrite bind_Ok.
        rewrite (fdiv_Ok (cnt (get rest w') + 0)) by lra. rewrite bind_Ok.
        set (p1 := ((cnt (get one w') + 0)
                    / (cnt (sum (values one)) + 0 * cnt V))%R).
        set (p0 := ((cnt (get rest w') + 0)
                    / (cnt (sum (values rest)) + 0 * cnt V))%R).
        assert (Hp1 : (0 < p1 <= 1)%R).
        { unfold p1. split; [apply Rdiv_lt_0_compat; lra|].
          apply div_le_1; lra. }
        assert (Hp0 : (0 < p0 <= 1)%R).
        { unfold p0. split; [apply Rdiv_lt_0_compat; lra|].
          apply div_le_1; lra. }
        unfold EPS.
        rewrite (fdiv_Ok p1) by lra. rewrite bind_Ok.
        rewrite math_log_Ok by (apply Rdiv_lt_0_compat; lra).
        rewrite bind_Ok.
        rewrite (fdiv_Ok p0) by lra. rewrite bind_Ok.
        rewrite math_log_Ok by (apply Rdiv_lt_0_compat; lra).
        rewrite bind_Ok. discriminate.
Qed.

(** X2: without smoothing ([alpha = 0]) and with [min_count] at least 1,
    the ranker raises as soon as the vocabulary holds a token that passes
    the gate and does not occur in rest: [ZeroDivisionError] when rest is
    empty of occurrences, [ValueError] (the logarithm of zero) otherwise. *)
Theorem log_odds_dirichlet_unsmoothed (ws : list str) (one rest : Counter)
    (topn min_count : Z) (w : str) :
  (1 <= min_count)%Z ->
  In w ws -> (min_count <= Z.of_nat (get one w))%Z -> get rest w = 0%nat ->
  log_odds_dirichlet_on ws one rest 0 topn min_count
  = Raise (if Nat.eqb (sum (values rest)) 0 then ZeroDivisionError
           else ValueError).
Proof.
  intros Hmc Hw Hg H0. unfold log_odds_dirichlet_on.
  by rewrite (rank_loop_unsmoothed ws one rest min_count _ [] w).
Qed.

Lemma log_odds_dirichlet_unsmoothed_witness :
  ((1 <= 2)%Z
   /\ In Scenario.jeongwon (Spec.vocab Scenario.target Scenario.rest)
   /\ (2 <= Z.of_nat (get Scenario.target Scenario.jeongwon))%Z
   /\ get Scenario.rest Scenario.jeongwon = 0%nat)
  /\ log_odds_dirichlet_on (Spec.vocab Scenario.target Scenario.rest)
       Scenario.target Scenario.rest 0 20 2
     = Raise ValueError.
Proof.
  assert (H1 : (1 <= 2)%Z) by lia.
  assert (H2 : In Scenario.jeongwon
                 (Spec.vocab Scenario.target Scenario.rest))
    by (vm_compute; tauto).
  assert (H3 : (2 <= Z.of_nat (get Scenario.target Scenario.jeongwon))%Z)
    by (vm_compute; discriminate).
  assert (H4 : get Scenario.rest Scenario.jeongwon = 0%nat) by reflexivity.
  split; [done|].
  exact (log_odds_dirichlet_unsmoothed _ Scenario.target Scenario.rest 20 2
           Scenario.jeongwon H1 H2 H3 H4).
Defined.

(** ** The ranker and the order of the vocabulary *)



Lemma StronglySorted_map {A B} (f : A -> B) (R1 : A -> A -> Prop)
    (R2 : B -> B -> Prop) (l : list A) :
  (forall a b, R1 a b -> R2 (f a) (f b)) ->
  StronglySorted R1 l -> StronglySorted R2 (List.map f l).
Proof.
  intros HR. induction 1 as [|x l Hs IH Hx]; cbn [List.map]; constructor;
    [done|].
  apply List.Forall_forall. intros y (z & <- & Hz)%in_map_iff.
  rewrite List.Forall_forall in Hx. apply HR. by apply Hx.
Qed.




(** ** One against rest, and rest against one *)

Lemma vocab_length_sym (one rest : Counter) :
  length (Spec.vocab one rest) = length (Spec.vocab rest one).
Proof.
  apply Permutation_length, NoDup_Permutation;
    [apply NoDup_remove_dups.. |].
  intros w. unfold Spec.vocab.
  rewrite !elem_of_remove_dups, !elem_of_app. tauto.
Qed.

Lemma score_swap (one rest : Counter) (alpha : R) (w : str) :
  Spec.score one rest alpha w = (- Spec.score rest one alpha w)%R.
Proof.
  unfold Spec.score, Spec.p1, Spec.p0.
  rewrite (vocab_length_sym rest one). lra.
Qed.

(** X4: for a positive [alpha], swapping the two counters negates the
    score: a token returned both by a run of one against rest and by a
    run of rest against one has opposite scores in the two, and its two
    counts are exchanged. *)
Theorem log_odds_dirichlet_swap (one rest : Counter) (alpha : R)
    (topn topn' min_count min_count' : Z) (out out' : list entry)
    (e e' : entry) :
  (0 < alpha)%R ->
  log_odds_dirichlet one rest alpha topn min_count (Ok out) ->
  log_odds_dirichlet rest one alpha topn' min_count' (Ok out') ->
  In e out -> In e' out' -> e_kw e = e_kw e' ->
  e_score e = (- e_score e')%R /\ e_c1 e = e_c0 e' /\ e_c0 e = e_c1 e'.
Proof.
  intros Ha Hrun Hrun' He He' Hkw.
  destruct (log_odds_dirichlet_entries one rest alpha topn min_count _
              Ha Hrun) as (ws & o & _ & [= <-] & _ & Hall).
  destruct (log_odds_dirichlet_entries rest one alpha topn' min_count' _
              Ha Hrun') as (ws' & o' & _ & [= <-] & _ & Hall').
  rewrite List.Forall_forall in Hall, Hall'.
  destruct (Hall e He) as (_ & _ & Heq).
  destruct (Hall' e' He') as (_ & _ & Heq').
  rewrite Heq, Heq', Hkw. cbn. split; [apply score_swap | done].
Qed.

Lemma scenario_rest_run (topn : Z) :
  log_odds_dirichlet Scenario.rest Scenario.target (1 / 100)%R topn 1
    (Ok (Scenario2.ranked_rest topn)).
Proof.
  exists (Spec.vocab Scenario.rest Scenario.target).
  split; [apply vocab_order|].
  apply log_odds_dirichlet_on_Ok; [lra | apply vocab_order].
Qed.

Lemma hanok_ranked :
  In (Spec.entry_of Scenario.target Scenario.rest (1 / 100)%R
        Scenario.hanok) (Scenario.ranked 20).
Proof.
  apply log_odds_dirichlet_on_In;
    [vm_compute; discriminate | apply vocab_order | | vm_compute; discriminate].
  vm_compute. tauto.
Qed.

Lemma hanok_ranked_rest :
  In (Spec.entry_of Scenario.rest Scenario.target (1 / 100)%R
        Scenario.hanok) (Scenario2.ranked_rest 20).
Proof.
  apply log_odds_dirichlet_on_In;
    [vm_compute; discriminate | apply vocab_order | | vm_compute; discriminate].
  vm_compute. tauto.
Qed.

Lemma log_odds_dirichlet_swap_witness :
  ((0 < 1 / 100)%R
   /\ log_odds_dirichlet Scenario.target Scenario.rest (1 / 100)%R 20 2
        (Ok (Scenario.ranked 20))
   /\ log_odds_dirichlet Scenario.rest Scenario.target (1 / 100)%R 20 1
        (Ok (Scenario2.ranked_rest 20))
   /\ In (Spec.entry_of Scenario.target Scenario.rest (1 / 100)%R
            Scenario.hanok) (Scenario.ranked 20)
   /\ In (Spec.entry_of Scenario.rest Scenario.target (1 / 100)%R
            Scenario.hanok) (Scenario2.ranked_rest 20))
  /\ (Spec.score Scenario.target Scenario.rest (1 / 100) Scenario.hanok
      = (- Spec.score Scenario.rest Scenario.target (1 / 100)
             Scenario.hanok)%R
      /\ get Scenario.target Scenario.hanok
         = get Scenario.target Scenario.hanok
      /\ get Scenario.rest Scenario.hanok = get Scenario.rest Scenario.hanok).
Proof.
  assert (Ha : (0 < 1 / 100)%R) by lra.
  split.
  - split; [exact Ha|]. split; [apply scenario_run|].
    split; [apply scenario_rest_run|].
    split; [apply hanok_ranked | apply hanok_ranked_rest].
  - exact (log_odds_dirichlet_swap Scenario.target Scenario.rest
             (1 / 100)%R 20 20 2 1 _ _ _ _ Ha (scenario_run 20)
             (scenario_rest_run 20) hanok_ranked hanok_ranked_rest
             eq_refl).
Defined.

(** ** The counters of the districts *)

Lemma get_incr (c : Counter) (w w' : str) (n : nat) :
  get (incr c w n) w'
  = (get c w' + if str_eqb w w' then n else 0)%nat.
Proof.
  induction c as [|[k v] c IH]; cbn [incr get].
  - destruct (str_eqb w w'); lia.
  - destruct (str_eqb k w) eqn:Hkw; cbn [get].
    + apply str_eqb_true in Hkw as ->.
      destruct (str_eqb w w'); lia.
    + destruct (str_eqb k w') eqn:Hkw'; [|apply IH].
      apply str_eqb_true in Hkw' as ->.
      rewrite (str_eqb_sym w w'), Hkw. lia.
Qed.

Lemma sum_values_incr (c : Counter) (w : str) (n : nat) :
  sum (values (incr c w n)) = (sum (values c) + n)%nat.
Proof.
  unfold sum, values.
  induction c as [|[k v] c IH]; cbn [incr List.map fold_right snd]; [lia|].
  destruct (str_eqb k w); cbn [List.map fold_right snd]; lia.
Qed.

Lemma keys_incr (c : Counter) (w : str) (n : nat) :
  keys (incr c w n) = if decide (w ∈ keys c) then keys c else keys c ++ [w].
Proof.
  induction c as [|[k v] c IH]; cbn [incr keys List.map].
  - destruct (decide (w ∈ [])) as [H|]; [by apply elem_of_nil in H | done].
  - destruct (str_eqb k w) eqn:Hkw; cbn [List.map fst].
    + apply str_eqb_true in Hkw as ->.
      destruct (decide (w ∈ w :: List.map fst c)) as [|Hn]; [done|].
      exfalso. apply Hn. by left.
    + apply str_eqb_false in Hkw. fold (keys (incr c w n)). rewrite IH.
      fold (keys c).
      destruct (decide (w ∈ keys c)) as [Hin|Hin];
        destruct (decide (w ∈ k :: keys c)) as [Hin'|Hin'];
        rewrite elem_of_cons in Hin'; try done.
      * exfalso. apply Hin'. by right.
      * destruct Hin' as [->|]; done.
Qed.

Lemma NoDup_keys_incr (c : Counter) (w : str) (n : nat) :
  NoDup (keys c) -> NoDup (keys (incr c w n)).
Proof.
  intros H. rewrite keys_incr. destruct (decide (w ∈ keys c)); [done|].
  apply NoDup_app. split; [done|]. split; [|apply NoDup_singleton].
  intros x Hx ->%list_elem_of_singleton. done.
Qed.

Lemma get_notin (c : Counter) (w : str) : w ∉ keys c -> get c w = 0%nat.
Proof.
  induction c as [|[k v] c IH]; cbn [get keys List.map fst]; [done|].
  rewrite not_elem_of_cons. intros [Hne Hin].
  replace (str_eqb k w) with false; [by apply IH|].
  symmetry. apply str_eqb_false. congruence.
Qed.

Lemma get_keep_positive (c : Counter) (w : str) :
  NoDup (keys c) -> get (keep_positive c) w = get c w.
Proof.
  unfold keep_positive.
  induction c as [|[k v] c IH]; cbn [keys List.map fst List.filter get snd];
    [done|].
  intros [Hk Hc]%NoDup_cons. fold (keys c) in Hk, Hc.
  destruct (Nat.ltb_spec 0 v) as [Hv|Hv]; cbn [get].
  - destruct (str_eqb k w); [done | by apply IH].
  - destruct (str_eqb k w) eqn:Hkw; [|by apply IH].
    apply str_eqb_true in Hkw as ->.
    rewrite IH by done. rewrite get_notin by done. lia.
Qed.

Lemma NoDup_keys_keep_positive (c : Counter) :
  NoDup (keys c) -> NoDup (keys (keep_positive c)).
Proof.
  unfold keep_positive, keys.
  induction c as [|[k v] c IH]; cbn [List.map fst List.filter snd]; [done|].
  intros [Hk Hc]%NoDup_cons.
  destruct (0 <? v)%nat; cbn [List.map fst]; [|by apply IH].
  apply NoDup_cons. split; [|by apply IH].
  intros Hin. apply Hk.
  apply list_elem_of_In in Hin. apply list_elem_of_In.
  apply in_map_iff in Hin as (kv & <- & Hkv).
  apply filter_In in Hkv as [Hkv _]. by apply in_map.
Qed.

Lemma fold_incr (other self : Counter) (w : str) :
  NoDup (keys other) -> NoDup (keys self) ->
  let r := fold_left (fun c kv => incr c (fst kv) (snd kv)) other self in
  NoDup (keys r) /\ get r w = (get self w + get other w)%nat.
Proof.
  revert self. induction other as [|[k v] other IH]; intros self Ho Hs;
    cbn [fold_left fst snd].
  - split; [done | cbn; lia].
  - cbn [keys List.map fst] in Ho. apply NoDup_cons in Ho as [Hk Ho].
    fold (keys other) in Hk, Ho.
    destruct (IH (incr self k v) Ho (NoDup_keys_incr _ _ _ Hs)) as [Hnd Hg].
    split; [done|]. rewrite Hg, get_incr. cbn [get].
    destruct (str_eqb k w) eqn:Hkw; [|lia].
    apply str_eqb_true in Hkw as ->. rewrite (get_notin other w Hk). lia.
Qed.

(** [self += other] adds the counts. *)
Lemma get_iadd (self other : Counter) (w : str) :
  NoDup (keys other) -> NoDup (keys self) ->
  NoDup (keys (iadd self other))
  /\ get (iadd self other) w = (get self w + get other w)%nat.
Proof.
  intros Ho Hs. unfold iadd.
  destruct (fold_incr other self w Ho Hs) as [Hnd Hg].
  split; [by apply NoDup_keys_keep_positive|].
  by rewrite get_keep_positive.
Qed.

Lemma count_fold (toks : list str) (c : Counter) (w : str) :
  let r := fold_left (fun c w => incr c w 1) toks c in
  get r w = (get c w + Spec.occurrences toks w)%nat
  /\ sum (values r) = (sum (values c) + length toks)%nat
  /\ (NoDup (keys c) -> NoDup (keys r)).
Proof.
  revert c. induction toks as [|t toks IH]; intros c; cbn [fold_left].
  - unfold Spec.occurrences. cbn. repeat split; (lia || done).
  - destruct (IH (incr c t 1)) as (Hg & Hs & Hnd).
    rewrite Hg, Hs, get_incr, sum_values_incr.
    unfold Spec.occurrences. cbn [List.filter length].
    split; [destruct (str_eqb t w); cbn [length]; lia|].
    split; [lia|]. intros H. by apply Hnd, NoDup_keys_incr.
Qed.

Lemma count_props (toks : list str) :
  NoDup (keys (count toks))
  /\ sum (values (count toks)) = length toks
  /\ forall w, get (count toks) w = Spec.occurrences toks w.
Proof.
  unfold count. split; [|split].
  - apply (count_fold toks [] []). constructor.
  - by destruct (count_fold toks [] []) as (_ & -> & _).
  - intros w. by destruct (count_fold toks [] w) as (-> & _).
Qed.

Lemma DISTRICTS_NoDup : NoDup DISTRICTS.
Proof.
  unfold DISTRICTS. repeat constructor; rewrite ?not_elem_of_cons;
    repeat split; (discriminate || apply not_elem_of_nil).
Qed.

Lemma dict_get_set_ne {V} (d : dict V) (k k' : str) (v : V) :
  k <> k' -> dict_get (dict_set d k v) k' = dict_get d k'.
Proof.
  intros Hne. induction d as [|[k0 v0] d IH]; cbn [dict_set dict_get].
  - replace (str_eqb k k') with false; [done|].
    symmetry. by apply str_eqb_false.
  - destruct (str_eqb k0 k) eqn:Hk; cbn [dict_get]; [|by rewrite IH].
    apply str_eqb_true in Hk as ->.
    replace (str_eqb k k') with false; [done|].
    symmetry. by apply str_eqb_false.
Qed.

Section Counters.
Context {db : UnicodeDB}.
Variable analyze : str -> list (list morph * R).

Lemma build_counters_get (ds : list str) (df : DataFrame)
    (c0 : dict Counter) :
  NoDup ds ->
  exists counters,
    build_counters analyze ds (tmp_of df) c0 = Ok counters
    /\ (forall d, d ∈ ds ->
          dict_get counters d
          = Ok (count (Spec2.district_tokens analyze df d)))
    /\ (forall d, d ∉ ds -> dict_get counters d = dict_get c0 d).
Proof.
  intros Hnd. revert c0.
  induction Hnd as [|d ds Hd Hnd IH]; intros c0; cbn [build_counters].
  - exists c0. split; [done|]. split; [|done].
    intros d Hd. by apply elem_of_nil in Hd.
  - rewrite extend_nouns_Ok, bind_Ok, app_nil_l.
    destruct (IH (dict_set c0 d
                    (count (List.concat
                       (List.map (Spec.tokenize analyze)
                          (texts_of (tmp_of df) d))))))
      as (cs & Hcs & Hin & Hout).
    exists cs. split; [done|]. split.
    + intros d' [->|Hd']%elem_of_cons; [|by apply Hin].
      rewrite Hout by done. apply dict_get_set_eq.
    + intros d' [Hne Hd']%not_elem_of_cons.
      rewrite Hout by done. by apply dict_get_set_ne.
Qed.

Lemma pool_rest_get (others : list str) (dist : str)
    (counters : dict Counter) (C : str -> Counter) (rest0 : Counter) :
  (forall o, In o others ->
     dict_get counters o = Ok (C o) /\ NoDup (keys (C o))) ->
  NoDup (keys rest0) ->
  exists r,
    pool_rest others dist counters rest0 = Ok r
    /\ NoDup (keys r)
    /\ forall w,
         get r w
         = (get rest0 w
            + sum (List.map (fun o => get (C o) w)
                     (List.filter (fun o => negb (str_eqb o dist)) others)))%nat.
Proof.
  revert rest0. induction others as [|o others IH]; intros rest0 HC Hr;
    cbn [pool_rest List.filter].
  - exists rest0. repeat split; [done|]. intros w. cbn. lia.
  - assert (HC' : forall o', In o' others ->
              dict_get counters o' = Ok (C o') /\ NoDup (keys (C o')))
      by (intros; apply HC; by right).
    destruct (negb (str_eqb o dist)); [|by apply IH].
    destruct (HC o (or_introl eq_refl)) as [-> Hco]. rewrite bind_Ok.
    destruct (get_iadd rest0 (C o) [] Hco Hr) as [Hnd _].
    destruct (IH (iadd rest0 (C o)) HC' Hnd) as (r & Hr' & Hndr & Hg).
    exists r. split; [done|]. split; [done|].
    intros w. rewrite Hg. cbn [List.map sum fold_right].
    destruct (get_iadd rest0 (C o) w Hco Hr) as [_ ->]. unfold sum. lia.
Qed.

(** X5: in [build_district_keywords] the counter of a district counts the
    tokens of the records of that district: its values add up to the
    number of tokens extracted from them, and the count of a token is
    the number of its occurrences among them. *)
Theorem district_counter_conservation (df : DataFrame) (d : str) :
  In d DISTRICTS ->
  exists counters one,
    build_counters analyze DISTRICTS (tmp_of df) [] = Ok counters
    /\ dict_get counters d = Ok one
    /\ sum (values one) = length (Spec2.district_tokens analyze df d)
    /\ forall w,
         get one w
         = Spec.occurrences (Spec2.district_tokens analyze df d) w.
Proof.
  intros Hd.
  destruct (build_counters_get DISTRICTS df [] DISTRICTS_NoDup)
    as (cs & Hcs & Hin & _).
  exists cs, (count (Spec2.district_tokens analyze df d)).
  split; [done|]. split; [by apply Hin, In_elem_of|].
  destruct (count_props (Spec2.district_tokens analyze df d))
    as (_ & Hs & Hg).
  by split.
Qed.

(** X6: the counter handed to the ranker as rest for a district pools the
    other four districts: the count of a token in it is the number of
    occurrences of the token in the records of the other districts, the
    district's own records and the unclassified ones left out. *)
Theorem pooled_rest_counts (df : DataFrame) (d : str) :
  In d DISTRICTS ->
  exists counters rest,
    build_counters analyze DISTRICTS (tmp_of df) [] = Ok counters
    /\ pool_rest DISTRICTS d counters [] = Ok rest
    /\ forall w, get rest w = Spec2.occurrences_elsewhere analyze df d w.
Proof.
  intros Hd.
  destruct (build_counters_get DISTRICTS df [] DISTRICTS_NoDup)
    as (cs & Hcs & Hin & _).
  destruct (pool_rest_get DISTRICTS d cs
              (fun o => count (Spec2.district_tokens analyze df o)) [])
    as (r & Hr & _ & Hg).
  - intros o Ho. split; [by apply Hin, In_elem_of|].
    apply count_props.
  - constructor.
  - exists cs, r. split; [done|]. split; [done|].
    intros w. rewrite Hg. cbn [get]. rewrite Nat.add_0_l.
    unfold Spec2.occurrences_elsewhere, Spec2.others. f_equal.
    apply map_ext. intros o.
    by destruct (count_props (Spec2.district_tokens analyze df o))
      as (_ & _ & ->).
Qed.
End Counters.

Lemma district_counter_conservation_witness :
  In (u "동구") DISTRICTS
  /\ exists counters one,
       build_counters Scenario2.analyze DISTRICTS
         (tmp_of (db := hangul_db) Scenario2.frame) [] = Ok counters
       /\ dict_get counters (u "동구") = Ok one
       /\ sum (values one)
          = length (Spec2.district_tokens (db := hangul_db)
                      Scenario2.analyze Scenario2.frame (u "동구"))
       /\ forall w,
            get one w
            = Spec.occurrences
                (Spec2.district_tokens (db := hangul_db) Scenario2.analyze
                   Scenario2.frame (u "동구")) w.
Proof.
  assert (H : In (u "동구") DISTRICTS) by (vm_compute; tauto).
  split; [exact H|].
  exact (district_counter_conservation (db := hangul_db) Scenario2.analyze
           Scenario2.frame (u "동구") H).
Defined.

Lemma pooled_rest_counts_witness :
  In (u "동구") DISTRICTS
  /\ exists counters rest,
       build_counters Scenario2.analyze DISTRICTS
         (tmp_of (db := hangul_db) Scenario2.frame) [] = Ok counters
       /\ pool_rest DISTRICTS (u "동구") counters [] = Ok rest
       /\ forall w,
            get rest w
            = Spec2.occurrences_elsewhere (db := hangul_db)
                Scenario2.analyze Scenario2.frame (u "동구") w.
Proof.
  assert (H : In (u "동구") DISTRICTS) by (vm_compute; tauto).
  split; [exact H|].
  exact (pooled_rest_counts (db := hangul_db) Scenario2.analyze
           Scenario2.frame (u "동구") H).
Defined.

(** ** The shape of the payload *)

Lemma log_odds_dirichlet_on_shape (ws : list str) (one rest : Counter)
    (alpha : R) (topn min_count : Z) (out : list entry) :
  log_odds_dirichlet_on ws one rest alpha topn min_count = Ok out ->
  Spec.by_score_desc out
  /\ Forall (fun e => (min_count <= Z.of_nat (e_c1 e))%Z) out
  /\ ((0 <= topn)%Z -> (Z.of_nat (length out) <= topn)%Z).
Proof.
  intros (cands & -> & Hkw & Hall)%log_odds_dirichlet_on_inv.
  split; [|split].
  - destruct (slice_to_take (sort_desc by_score cands) topn) as [k ->].
    apply StronglySorted_take, sort_by_score_sorted.
  - apply List.Forall_forall. intros e He. apply slice_to_In in He.
    apply (Permutation_in _ (sort_desc_perm by_score _)) in He.
    rewrite List.Forall_forall in Hall. destruct (Hall e He) as [-> _].
    assert (Hin : In (e_kw e) (List.map e_kw cands)) by by apply in_map.
    rewrite Hkw in Hin. by apply filter_gate_In in Hin as [_ Hg].
  - apply slice_to_length.
Qed.

Lemma dict_set_keys {V} (d : dict V) (k : str) (v : V) :
  In k (List.map fst d) -> List.map fst (dict_set d k v) = List.map fst d.
Proof.
  induction d as [|[k0 v0] d IH]; cbn [dict_set List.map fst In]; [done|].
  destruct (str_eqb k0 k) eqn:Hk; cbn [List.map fst]; [done|].
  apply str_eqb_false in Hk. intros [?|Hin]; [done|]. by rewrite IH.
Qed.

Section Shape.
Context {db : UnicodeDB}.
Variable analyze : str -> list (list morph * R).
Variable vocab_order : Counter -> Counter -> list str.

Lemma to_item_ok (topn min_count : Z) (ranked : list entry) :
  Spec.by_score_desc ranked
  /\ Forall (fun e => (min_count <= Z.of_nat (e_c1 e))%Z) ranked
  /\ ((0 <= topn)%Z -> (Z.of_nat (length ranked) <= topn)%Z) ->
  Spec2.district_items_ok topn min_count (List.map to_item ranked).
Proof.
  intros (Hs & Hg & Hl). split; [|split].
  - eapply StronglySorted_map; [|exact Hs]. done.
  - apply List.Forall_forall. intros it (e & <- & He)%in_map_iff.
    rewrite List.Forall_forall in Hg. by apply Hg.
  - by rewrite length_map.
Qed.

Lemma rank_all_shape (ds : list str) (counters : dict Counter)
    (topn min_count : Z) (res res' : dict (list item)) :
  (forall d, In d ds -> In d (List.map fst res)) ->
  (forall d items, dict_get res d = Ok items -> d <> ETC ->
     Spec2.district_items_ok topn min_count items) ->
  rank_all vocab_order ds counters topn min_count res = Ok res' ->
  List.map fst res' = List.map fst res
  /\ forall d items, dict_get res' d = Ok items -> d <> ETC ->
       Spec2.district_items_ok topn min_count items.
Proof.
  revert res. induction ds as [|d ds IH]; intros res Hkeys Hok;
    cbn [rank_all].
  - by intros [= <-].
  - intros (one & _ & H1)%bind_Ok_inv.
    apply bind_Ok_inv in H1 as (rest & _ & H2).
    apply bind_Ok_inv in H2 as (ranked & Hranked & H3).
    assert (Hd : In d (List.map fst res)) by (apply Hkeys; by left).
    apply IH in H3 as [Hk Hok'].
    + split; [|done]. by rewrite Hk, dict_set_keys.
    + intros d' Hd'. rewrite dict_set_keys by done. apply Hkeys. by right.
    + intros d' items Hget Hne.
      destruct (decide (d = d')) as [<-|Hdd].
      * rewrite dict_get_set_eq in Hget. injection Hget as <-.
        by apply to_item_ok, (log_odds_dirichlet_on_shape _ _ _ _ _ _ _
                                Hranked).
      * rewrite dict_get_set_ne in Hget by done. by eapply Hok.
Qed.

(** X7: the payload of [build_district_keywords] has the six keys of
    [DISTRICTS_WITH_ETC], in that order, and the items of each of the
    five districts are sorted by score in descending order, have a count
    of at least [min_count] each, and are at most [topn] when [topn] is
    not negative. *)
Theorem payload_shape (df : DataFrame) (topn min_count : Z) :
  exists payload,
    build_district_keywords analyze vocab_order df topn min_count
    = Ok payload
    /\ List.map fst payload = DISTRICTS_WITH_ETC
    /\ Forall (fun d =>
                 exists items,
                   dict_get payload d = Ok items
                   /\ Spec2.items_by_score_desc items
                   /\ Forall (fun it => (min_count <= Z.of_nat (cnt_ it))%Z)
                        items
                   /\ ((0 <= topn)%Z ->
                       (Z.of_nat (length items) <= topn)%Z))
         DISTRICTS.
Proof.
  destruct (build_district_keywords_etc analyze vocab_order df topn
              min_count) as (payload & Hp & _).
  exists payload. split; [done|].
  unfold build_district_keywords in Hp.
  apply bind_Ok_inv in Hp as (cs & _ & Hp).
  apply bind_Ok_inv in Hp as (res & Hres & Hp).
  apply bind_Ok_inv in Hp as (toks & _ & [= <-]).
  apply rank_all_shape in Hres as [Hk Hok].
  - assert (Hkeys : List.map fst res = DISTRICTS_WITH_ETC).
    { rewrite Hk, List.map_map. apply map_id. }
    split.
    + rewrite dict_set_keys; [done|]. rewrite Hkeys. vm_compute. tauto.
    + apply List.Forall_forall. intros d Hd.
      assert (Hne : ETC <> d).
      { intros <-. revert Hd. vm_compute. intuition discriminate. }
      assert (Hin : In d (List.map fst res)).
      { rewrite Hkeys. unfold DISTRICTS_WITH_ETC. apply in_or_app.
        by left. }
      destruct (dict_set_has res d d [] (or_intror eq_refl)) as [x _].
      assert (Hex : exists items, dict_get res d = Ok items).
      { clear -Hin. induction res as [|[k v] res IH]; [done|].
        cbn [dict_get]. destruct (str_eqb k d) eqn:Hkd; [eauto|].
        apply str_eqb_false in Hkd. destruct Hin as [?|Hin]; [done|].
        by apply IH. }
      destruct Hex as [items Hitems]. exists items.
      rewrite dict_get_set_ne by done. split; [done|].
      by apply (Hok d items Hitems).
  - intros d Hd. rewrite List.map_map, map_id.
    unfold DISTRICTS_WITH_ETC. apply in_or_app. by left.
  - intros d items Hget _.
    assert (items = []) as ->.
    { revert Hget. generalize DISTRICTS_WITH_ETC. intros l.
      induction l as [|k l IH]; cbn [List.map dict_get]; [done|].
      destruct (str_eqb k d); [by intros [= <-] | done]. }
    split; [constructor|]. split; [constructor|]. cbn. lia.
Qed.
End Shape.

(** ** The form of a normalized text *)

Lemma normal_form {db : UnicodeDB} (t : str) :
  let y := strip (sub RE_MULTI SPACE (sub RE_PUNCT SPACE t)) in
  Spec.punct_free y /\ Spec.single_spaced y /\ Spec2.stripped y.
Proof.
  intros y.
  pose proof (sub_punct_out None t) as Hp. fold (sub RE_PUNCT SPACE t) in Hp.
  destruct (sub_multi_out (fun c => punct c = false)
              (sub RE_PUNCT SPACE t) punct_U0020 Hp None)
    as [[Hss Hpf] _].
  fold (sub RE_MULTI SPACE (sub RE_PUNCT SPACE t)) in Hss, Hpf.
  destruct (strip_out _ _ Hss Hpf) as (Hy1 & Hy2 & Hy3 & Hy4).
  by repeat split.
Qed.

(** X8: whatever the input, the text that [clean_text_for_kw] (and
    [clean_text] of [main2.py]) returns holds no punctuation other than
    the middle dot, holds white space only as single U+0020 between other
    code points, and neither starts nor ends with white space; for an
    input that is no string it is empty. *)
Theorem clean_text_normal_form {db : UnicodeDB} (text : value) :
  (Spec.punct_free (clean_text_for_kw text)
   /\ Spec.single_spaced (clean_text_for_kw text)
   /\ Spec2.stripped (clean_text_for_kw text))
  /\ (Spec.punct_free (main2.clean_text text)
      /\ Spec.single_spaced (main2.clean_text text)
      /\ Spec2.stripped (main2.clean_text text))
  /\ (isinstance_str text = false ->
      clean_text_for_kw text = [] /\ main2.clean_text text = []).
Proof.
  destruct text as [s| | |s]; cbn [clean_text_for_kw main2.clean_text];
    repeat split; try apply normal_form; try constructor; done.
Qed.

(** ** The two ways of finding a district *)

Lemma ETC_not_district : ~ In ETC DISTRICTS.
Proof. vm_compute. intuition discriminate. Qed.

(** X9: on an address that is a string, [extract_district] of
    [architect_buildings.py] returns the sentinel exactly when
    [extract_district] of [main2.py] returns [None], and when one district
    only occurs in the address both return that district. *)
Theorem extract_district_agree {db : UnicodeDB} (addr : str) :
  (extract_district (VStr addr) = ETC
   <-> main2.extract_district (VStr addr) = None)
  /\ forall d,
       In d DISTRICTS -> contains d addr = true ->
       (forall d', In d' DISTRICTS -> contains d' addr = true -> d' = d) ->
       extract_district (VStr addr) = d
       /\ main2.extract_district (VStr addr) = Some d.
Proof.
  pose proof (extract_district_leftmost (VStr addr)) as Hl.
  cbn [str_of] in Hl. cbn [main2.extract_district].
  split; [split|].
  - intros Hetc. apply first_contained_None. intros d Hd.
    destruct (contains d addr) eqn:Hc; [|done].
    apply contains_occurs in Hc as [k Hk].
    destruct Hl as [(k' & Hin & _)|[_ Hnone]].
    + rewrite Hetc in Hin. by apply ETC_not_district in Hin.
    + by apply Hnone in Hk.
  - intros Hnone. destruct Hl as [(k & Hin & Hocc & _)|[-> _]]; [|done].
    exfalso.
    assert (Hc : contains (extract_district (VStr addr)) addr = true)
      by (apply contains_occurs; eauto).
    rewrite first_contained_None in Hnone. rewrite Hnone in Hc; done.
  - intros d Hd Hc Honly. split.
    + destruct Hl as [(k & Hin & Hocc & _)|[_ Hnone]].
      * apply Honly; [done|]. apply contains_occurs. eauto.
      * apply contains_occurs in Hc as [k Hk]. by apply Hnone in Hk.
    + destruct (main2.first_contained main2.DISTRICTS addr) as [d'|] eqn:Hf.
      * apply first_contained_Some in Hf as (ds1 & ds2 & Hds & Hc' & _).
        f_equal. apply Honly; [|done]. unfold main2.DISTRICTS in Hds.
        rewrite Hds. apply in_or_app. right. by left.
      * rewrite first_contained_None in Hf. rewrite Hf in Hc; done.
Qed.

Lemma extract_district_agree_witness :
  extract_district (db := hangul_db) (VStr (u "광주광역시 북구 용봉로 77"))
  = u "북구"
  /\ main2.extract_district (VStr (u "광주광역시 북구 용봉로 77"))
     = Some (u "북구").
Proof.
  apply (extract_district_agree (db := hangul_db)
           (u "광주광역시 북구 용봉로 77")).
  - vm_compute. tauto.
  - vm_compute. reflexivity.
  - intros d' Hd' Hc.
    unfold DISTRICTS in Hd'. cbn [In] in Hd'.
    destruct Hd' as [<-|[<-|[<-|[<-|[<-|[]]]]]]; vm_compute in Hc;
      (discriminate || reflexivity).
Defined.

(** X10: a label is its own district: extracting the district from what
    [extract_district] returned gives the same label again. *)
Theorem extract_district_idempotent {db : UnicodeDB} (address : value) :
  extract_district (VStr (extract_district address))
  = extract_district address.
Proof.
  pose proof (extract_district_leftmost address) as Hl.
  apply leftmost_district_label in Hl.
  unfold Spec.is_label, DISTRICTS_WITH_ETC, DISTRICTS, ETC in Hl.
  cbn [app In] in Hl.
  destruct Hl as [<-|[<-|[<-|[<-|[<-|[<-|[]]]]]]]; reflexivity.
Qed.

(** ** The keywords of main.py *)

Lemma counter_pop_In (c : Counter) (w : str) (kv : str * nat) :
  In kv (PyMore.counter_pop c w) <-> In kv c /\ fst kv <> w.
Proof.
  unfold PyMore.counter_pop.
  by rewrite filter_In, negb_true_iff, str_eqb_false.
Qed.

Lemma counter_pops_In (ws : list str) (c : Counter) (kv : str * nat) :
  In kv (fold_left PyMore.counter_pop ws c) <-> In kv c /\ ~ In (fst kv) ws.
Proof.
  revert c. induction ws as [|w ws IH]; intros c; cbn [fold_left In].
  - tauto.
  - rewrite IH, counter_pop_In. intuition congruence.
Qed.

Lemma counter_pop_absent (c : Counter) (w : str) :
  ~ In w (keys c) -> PyMore.counter_pop c w = c.
Proof.
  intros Hw. unfold PyMore.counter_pop. apply filter_all.
  intros kv Hkv. apply negb_true_iff, str_eqb_false. intros <-.
  apply Hw. by apply in_map.
Qed.

Lemma most_common_props (c : Counter) (n : Z) :
  (forall kv, In kv (most_common c n) -> In kv c)
  /\ Spec.by_count_desc (most_common c n)
  /\ (length (most_common c n) <= Z.to_nat n)%nat.
Proof.
  rewrite most_common_take. split; [|split].
  - intros kv Hkv.
    eapply Permutation_in; [apply sort_desc_perm|].
    apply In_elem_of. eapply subseteq_take. apply In_elem_of, Hkv.
  - apply StronglySorted_take, sort_by_count_sorted.
  - rewrite length_take. lia.
Qed.

Lemma count_In (toks : list str) (kv : str * nat) :
  In kv (count toks) ->
  In (fst kv) toks /\ snd kv = Spec.occurrences toks (fst kv)
  /\ (1 <= snd kv)%nat.
Proof. rewrite count_frequencies. apply frequencies_In. Qed.

Section MainPy.
Context {db : UnicodeDB}.

Lemma sub_cls_delete (p : char -> bool) (prev : option char) (s : str) :
  sub_go (Cls p) [] prev s 0 = List.filter (fun c => negb (p c)) s.
Proof.
  revert prev. induction s as [|c s IH]; intros prev;
    cbn [sub_go List.filter]; [done|].
  unfold match_at. cbn [m]. destruct (p c); cbn [negb app]; by rewrite IH.
Qed.

Lemma split_go_words (Q : char -> Prop) (s cur : str) :
  Forall Q s -> Forall Q cur -> Forall (fun c => is_space c = false) cur ->
  Forall (fun w => w <> []
                   /\ Forall (fun c => is_space c = false /\ Q c) w)
    (PyMore.split_go s cur).
Proof.
  intros Hs. revert cur.
  induction Hs as [|c s Hc Hs IH]; intros cur Hq Hn;
    cbn [PyMore.split_go].
  - destruct cur as [|c0 cur]; constructor; [|constructor].
    split; [done|]. apply List.Forall_forall. intros c Hin.
    rewrite List.Forall_forall in Hq, Hn. split; [by apply Hn | by apply Hq].
  - destruct (is_space c) eqn:Hsp.
    + destruct cur as [|c0 cur]; [by apply IH|].
      constructor; [|by apply IH].
      split; [done|]. apply List.Forall_forall. intros c' Hin.
      rewrite List.Forall_forall in Hq, Hn.
      split; [by apply Hn | by apply Hq].
    + apply IH; apply Forall_app; split; try done; by constructor.
Qed.

(** The words of [clean_text] are words of Hangul syllables. *)
Lemma clean_text_words (text : value) :
  Forall (fun w => w <> []
                   /\ Forall (fun c => main_py_keywords.hangul c = true) w)
    (main_py_keywords.clean_text text).
Proof.
  unfold main_py_keywords.clean_text, PyMore.split, sub,
    main_py_keywords.RE_NOT_HANGUL.
  rewrite sub_cls_delete.
  eapply List.Forall_impl;
    [|apply (split_go_words
               (fun c => main_py_keywords.hangul c = true
                         \/ is_space c = true))].
  - intros w [Hw Hall]. split; [done|].
    eapply List.Forall_impl; [|exact Hall].
    intros c [Hn [Hh|Hs]]; [done | congruence].
  - apply List.Forall_forall. intros c [_ Hc]%filter_In.
    rewrite negb_involutive in Hc. by apply orb_true_iff in Hc.
  - constructor.
  - constructor.
Qed.

(** X11: the keywords [main.py] keeps for a district are at most ten,
    sorted by count in descending order; each is a non-empty word of
    Hangul syllables only, is none of the seven stopwords, and carries
    the number of its occurrences among the words of the district's
    descriptions. *)
Theorem main_py_district_keywords (rows : list Row) (d : str) :
  Forall (fun kc =>
            fst kc <> []
            /\ Forall (fun c => main_py_keywords.hangul c = true) (fst kc)
            /\ ~ In (fst kc) main_py_keywords.stopwords
            /\ snd kc
               = Spec.occurrences
                   (main_py_keywords.words_of
                      (main_py_keywords.texts_of rows d)) (fst kc)
            /\ (1 <= snd kc)%nat)
    (main_py_keywords.district_keywords rows d)
  /\ Spec.by_count_desc (main_py_keywords.district_keywords rows d)
  /\ (length (main_py_keywords.district_keywords rows d) <= 10)%nat.
Proof.
  unfold main_py_keywords.district_keywords.
  set (words := main_py_keywords.words_of _).
  destruct (most_common_props
              (fold_left PyMore.counter_pop main_py_keywords.stopwords
                 (count words)) 10) as (Hsub & Hsorted & Hlen).
  split; [|split; [done | exact Hlen]].
  apply List.Forall_forall. intros kc Hkc.
  apply Hsub, counter_pops_In in Hkc as [Hkc Hstop].
  apply count_In in Hkc as (Hin & Hocc & Hpos).
  assert (Hw : fst kc <> []
               /\ Forall (fun c => main_py_keywords.hangul c = true)
                    (fst kc)).
  { unfold words, main_py_keywords.words_of in Hin.
    apply in_concat in Hin as (ws & Hws & Hin).
    apply in_map_iff in Hws as (text & <- & _).
    pose proof (clean_text_words text) as Hall.
    rewrite List.Forall_forall in Hall. by apply Hall. }
  tauto.
Qed.
End MainPy.

(** ** The keywords of main2.py *)

Lemma main2_nouns_loop_kept (ts : list morph) (tokens : list str) :
  Forall (fun n => (1 <? length n)%nat
                   && negb (bool_decide (n ∈ main2.STOPWORDS)) = true)
    tokens ->
  Forall (fun n => (1 <? length n)%nat
                   && negb (bool_decide (n ∈ main2.STOPWORDS)) = true)
    (main2.nouns_loop ts tokens).
Proof.
  revert tokens. induction ts as [|t ts IH]; intros tokens Hall;
    cbn [main2.nouns_loop]; [done|].
  destruct (str_eqb (pos t) NNG || str_eqb (pos t) NNP); [|by apply IH].
  destruct ((2 <=? length (form t))%nat
            && negb (bool_decide (form t ∈ main2.STOPWORDS))) eqn:Hk;
    [|by apply IH].
  apply IH, Forall_app. split; [done|]. constructor; [|constructor].
  apply andb_true_iff in Hk as [Hlen Hstop].
  apply andb_true_iff. split; [|done].
  apply Nat.leb_le in Hlen. apply Nat.ltb_lt. lia.
Qed.

Section Main2Keywords.
Context {db : UnicodeDB}.
Variable analyze : str -> list (list morph * R).

Lemma main2_extend_nouns_kept (ss : list str) (nouns out : list str) :
  Forall (fun n => (1 <? length n)%nat
                   && negb (bool_decide (n ∈ main2.STOPWORDS)) = true)
    nouns ->
  main2_keywords.extend_nouns analyze ss nouns = Ok out ->
  Forall (fun n => (1 <? length n)%nat
                   && negb (bool_decide (n ∈ main2.STOPWORDS)) = true)
    out.
Proof.
  revert nouns. induction ss as [|s ss IH]; intros nouns Hall;
    cbn [main2_keywords.extend_nouns].
  - by intros [= <-].
  - intros (ns & Hns & Hrest)%bind_Ok_inv.
    apply (IH (nouns ++ ns)); [|done].
    apply Forall_app. split; [done|].
    unfold main2.nouns_only in Hns.
    destruct s as [|c s]; [injection Hns as <-; constructor|].
    apply bind_Ok_inv in Hns as (first & _ & [= <-]).
    apply main2_nouns_loop_kept. constructor.
Qed.

(** X12: in [run_keybert_by_district] the second filter (more than one
    code point, no stopword) removes nothing: the nouns kept for a
    district are all the nouns [nouns_only] returned for its texts, and a
    failure of [nouns_only] is the failure of the whole. *)
Theorem district_nouns_refilter (texts : list str) :
  main2_keywords.district_nouns analyze texts
  = main2_keywords.extend_nouns analyze texts [].
Proof.
  unfold main2_keywords.district_nouns.
  destruct (main2_keywords.extend_nouns analyze texts []) as [nouns|e]
    eqn:Hext; [|reflexivity].
  rewrite bind_Ok. f_equal. apply filter_all.
  pose proof (main2_extend_nouns_kept texts [] nouns ltac:(constructor)
                Hext) as Hall.
  rewrite List.Forall_forall in Hall. exact Hall.
Qed.

Lemma script_words_single (texts : list value) :
  Forall (fun w => length w = 1%nat) (main2_keywords.words_of texts).
Proof.
  unfold main2_keywords.words_of.
  apply List.Forall_forall. intros w Hw.
  apply in_concat in Hw as (ws & Hws & Hw).
  apply in_map_iff in Hws as (text & <- & _).
  by apply in_map_iff in Hw as (c & <- & _).
Qed.

(** X13: in the script at the end of [main2.py], [clean_text] returns a
    string, so the "words" that are counted are its single code points:
    every keyword kept for a district has length 1, and popping the
    seven stopwords, which have two code points each, changes nothing. *)
Theorem main2_script_keywords (rows : list Row) (d : str) :
  Forall (fun kc => length (fst kc) = 1%nat)
    (main2_keywords.district_keywords rows d)
  /\ main2_keywords.district_keywords rows d
     = most_common
         (count (main2_keywords.words_of
                   (main_py_keywords.texts_of rows d))) 10.
Proof.
  unfold main2_keywords.district_keywords.
  set (words := main2_keywords.words_of _).
  assert (Hkeys : forall w, In w (keys (count words)) -> length w = 1%nat).
  { intros w (kv & <- & Hkv)%in_map_iff.
    apply count_In in Hkv as [Hin _].
    pose proof (script_words_single (main_py_keywords.texts_of rows d))
      as Hall.
    rewrite List.Forall_forall in Hall. by apply Hall. }
  assert (Hpop : fold_left PyMore.counter_pop main_py_keywords.stopwords
                   (count words) = count words).
  { unfold main_py_keywords.stopwords. cbn [fold_left].
    repeat (rewrite (counter_pop_absent (count words))
              by (intros Hin; apply Hkeys in Hin; discriminate)).
    reflexivity. }
  rewrite Hpop. split; [|done].
  apply List.Forall_forall. intros kc Hkc.
  apply most_common_props in Hkc. apply Hkeys. by apply in_map.
Qed.
End Main2Keywords.

(** ** The two tokenizers *)

Lemma main2_stopwords_subset (w : str) :
  w ∈ main2.STOPWORDS -> w ∈ STOPWORDS.
Proof.
  unfold main2.STOPWORDS, STOPWORDS. rewrite <- !In_elem_of. cbn [In].
  intuition (subst; tauto).
Qed.

Lemma nouns_loops (ts : list morph) (tokens tokens2 : list str) :
  tokens
  = List.filter (fun w => negb (bool_decide (w ∈ STOPWORDS))) tokens2 ->
  nouns_loop ts tokens
  = List.filter (fun w => negb (bool_decide (w ∈ STOPWORDS)))
      (main2.nouns_loop ts tokens2).
Proof.
  revert tokens tokens2. induction ts as [|t ts IH]; intros tokens tokens2 H;
    cbn [nouns_loop main2.nouns_loop]; [done|].
  destruct (str_eqb (pos t) NNG || str_eqb (pos t) NNP); [|by apply IH].
  destruct (2 <=? length (form t))%nat; cbn [andb]; [|by apply IH].
  destruct (decide (form t ∈ STOPWORDS)) as [Hs|Hs].
  - rewrite (bool_decide_eq_true_2 _ Hs). cbn [negb].
    destruct (bool_decide (form t ∈ main2.STOPWORDS)); cbn [negb];
      [by apply IH|].
    apply IH. rewrite List.filter_app. cbn [List.filter].
    rewrite (bool_decide_eq_true_2 _ Hs). cbn [negb].
    by rewrite app_nil_r.
  - rewrite (bool_decide_eq_false_2 _ Hs). cbn [negb].
    assert (Hs2 : form t ∉ main2.STOPWORDS)
      by (intros H2; by apply Hs, main2_stopwords_subset).
    rewrite (bool_decide_eq_false_2 _ Hs2). cbn [negb].
    apply IH. rewrite List.filter_app. cbn [List.filter].
    rewrite (bool_decide_eq_false_2 _ Hs). cbn [negb]. by rewrite H.
Qed.

(** X14: whenever [nouns_only] of [main2.py] returns, [nouns_only] of
    [architect_buildings.py] returns the same tokens without those of its
    longer stopword list, in the same order. *)
Theorem nouns_only_siblings (analyze : str -> list (list morph * R))
    (text : str) (toks2 : list str) :
  main2.nouns_only analyze text = Ok toks2 ->
  nouns_only analyze text
  = Ok (List.filter (fun w => negb (bool_decide (w ∈ STOPWORDS))) toks2).
Proof.
  unfold main2.nouns_only, nouns_only.
  destruct text as [|c text]; [by intros [= <-]|].
  destruct (analyze (c :: text)) as [|a rest]; [done|].
  cbn [index0]. rewrite !bind_Ok. intros [= <-]. f_equal.
  by apply nouns_loops.
Qed.

Lemma nouns_only_siblings_witness :
  main2.nouns_only Scenario2.analyze (u "광주 한옥 정원 동구") 
  = Ok [u "한옥"; u "정원"; u "동구"]
  /\ nouns_only Scenario2.analyze (u "광주 한옥 정원 동구")
     = Ok (List.filter (fun w => negb (bool_decide (w ∈ STOPWORDS)))
             [u "한옥"; u "정원"; u "동구"]).
Proof.
  assert (H : main2.nouns_only Scenario2.analyze (u "광주 한옥 정원 동구")
              = Ok [u "한옥"; u "정원"; u "동구"])
    by (vm_compute; reflexivity).
  split; [exact H|].
  exact (nouns_only_siblings Scenario2.analyze _ _ H).
Defined.

(** ** What the ranker keeps *)

Lemma StronglySorted_app_inv {A} (R : A -> A -> Prop) (l1 l2 : list A) :
  StronglySorted R (l1 ++ l2) ->
  forall a b, In a l1 -> In b l2 -> R a b.
Proof.
  induction l1 as [|x l1 IH]; cbn [app]; [by intros _ a b []|].
  intros [Hs Hx]%StronglySorted_inv a b [<-|Ha] Hb.
  - rewrite List.Forall_forall in Hx. apply Hx, in_or_app. by right.
  - by apply IH.
Qed.

(** X15: no token is returned twice: the tokens of the entries of a
    run are distinct. *)
Theorem log_odds_dirichlet_distinct (one rest : Counter) (alpha : R)
    (topn min_count : Z) (out : list entry) :
  log_odds_dirichlet one rest alpha topn min_count (Ok out) ->
  NoDup (List.map e_kw out).
Proof.
  intros (ws & [Hnd _] & Hres).
  apply log_odds_dirichlet_on_inv in Hres as (cands & -> & Hkw & _).
  destruct (slice_to_take (sort_desc by_score cands) topn) as [k ->].
  change (NoDup (e_kw <$> take k (sort_desc by_score cands))).
  rewrite fmap_take. eapply sublist_NoDup; [|apply sublist_take].
  change (NoDup (List.map e_kw (sort_desc by_score cands))).
  rewrite (Permutation_map e_kw (sort_desc_perm by_score cands)), Hkw.
  apply NoDup_ListNoDup, List.NoDup_filter. by apply NoDup_ListNoDup.
Qed.

Lemma log_odds_dirichlet_distinct_witness :
  log_odds_dirichlet Scenario.target Scenario.rest (1 / 100)%R 20 2
    (Ok (Scenario.ranked 20))
  /\ NoDup (List.map e_kw (Scenario.ranked 20)).
Proof.
  split; [apply scenario_run|].
  exact (log_odds_dirichlet_distinct Scenario.target Scenario.rest
           (1 / 100)%R 20 2 _ (scenario_run 20)).
Defined.

(** X16: truncation drops the lowest scores only: for a positive
    [alpha], a token of the vocabulary that passes the gate is either
    returned or has a score that is at most the score of every returned
    entry. *)
Theorem log_odds_dirichlet_keeps_best (one rest : Counter) (alpha : R)
    (topn min_count : Z) (out : list entry) (w : str) :
  (0 < alpha)%R ->
  log_odds_dirichlet one rest alpha topn min_count (Ok out) ->
  In w (Spec.vocab one rest) -> (min_count <= Z.of_nat (get one w))%Z ->
  In (Spec.entry_of one rest alpha w) out
  \/ forall e, In e out -> (Spec.score one rest alpha w <= e_score e)%R.
Proof.
  intros Ha Hrun Hw Hg.
  destruct (log_odds_dirichlet_entries one rest alpha topn min_count _
              Ha Hrun) as (ws & o & Hws & [= <-] & -> & _).
  set (l := sort_desc by_score _).
  assert (Hin : In (Spec.entry_of one rest alpha w) l).
  { eapply Permutation_in; [symmetry; apply sort_desc_perm|].
    apply in_map, filter_gate_In. split; [|done].
    eapply Permutation_in; [|exact Hw].
    eapply set_union_order_perm; [apply vocab_order | done]. }
  destruct (slice_to_take l topn) as [k ->].
  rewrite <- (take_drop k l) in Hin. apply in_app_or in Hin as [Hin|Hin];
    [by left|].
  right. intros e He.
  pose proof (sort_by_score_sorted
                (List.map (Spec.entry_of one rest alpha)
                   (List.filter (Spec.gate one min_count) ws))) as Hs.
  fold l in Hs. unfold Spec.by_score_desc in Hs.
  rewrite <- (take_drop k l) in Hs.
  exact (StronglySorted_app_inv _ _ _ Hs _ _ He Hin).
Qed.

Lemma log_odds_dirichlet_keeps_best_witness :
  ((0 < 1 / 100)%R
   /\ log_odds_dirichlet Scenario.target Scenario.rest (1 / 100)%R 1 2
        (Ok (Scenario.ranked 1))
   /\ In Scenario.hanok (Spec.vocab Scenario.target Scenario.rest)
   /\ (2 <= Z.of_nat (get Scenario.target Scenario.hanok))%Z)
  /\ (In (Spec.entry_of Scenario.target Scenario.rest (1 / 100)%R
            Scenario.hanok) (Scenario.ranked 1)
      \/ forall e, In e (Scenario.ranked 1) ->
           (Spec.score Scenario.target Scenario.rest (1 / 100)
              Scenario.hanok <= e_score e)%R).
Proof.
  assert (Ha : (0 < 1 / 100)%R) by lra.
  assert (Hw : In Scenario.hanok (Spec.vocab Scenario.target Scenario.rest))
    by (vm_compute; tauto).
  assert (Hg : (2 <= Z.of_nat (get Scenario.target Scenario.hanok))%Z)
    by (vm_compute; discriminate).
  split; [split; [exact Ha | split; [apply scenario_run | by split]]|].
  exact (log_odds_dirichlet_keeps_best Scenario.target Scenario.rest
           (1 / 100)%R 1 2 _ Scenario.hanok Ha (scenario_run 1) Hw Hg).
Defined.




(** ** Texts the normalizer leaves alone *)

(** X18: a text without a decimal digit is returned unchanged by
    [clean_text_for_kw] (and by [clean_text] of [main2.py]) exactly when it
    holds no punctuation that [RE_PUNCT] replaces, holds white space only
    as single U+0020 between other code points, and neither starts nor
    ends with white space. *)
Theorem clean_text_fixed_points {db : UnicodeDB} (s : str) :
  Spec.digit_free s ->
  (clean_text_for_kw (VStr s) = s
   <-> Spec.punct_free s /\ Spec.single_spaced s /\ Spec2.stripped s)
  /\ (main2.clean_text (VStr s) = s
      <-> Spec.punct_free s /\ Spec.single_spaced s /\ Spec2.stripped s).
Proof.
  intros Hd.
  assert (Hfix : forall re_num, Spec.needs_digit re_num ->
            Spec.punct_free s /\ Spec.single_spaced s /\ Spec2.stripped s ->
            strip
              (sub RE_MULTI SPACE
                 (sub RE_PUNCT SPACE
                    (sub re_num SPACE
                       (sub RE_YEAR SPACE
                          (sub RE_ORD SPACE
                             (replace (u "5·18") (u "오월민주화") s))))))
            = s).
  { intros re_num Hnum (Hp & Hss & Hh & Hr).
    rewrite (replace_digit_free s Hd).
    rewrite (sub_needs_digit RE_ORD SPACE s RE_ORD_needs_digit Hd).
    rewrite (sub_needs_digit RE_YEAR SPACE s RE_YEAR_needs_digit Hd).
    rewrite (sub_needs_digit re_num SPACE s Hnum Hd).
    rewrite (sub_punct_free s Hp).
    rewrite (sub_multi_single_spaced s Hss).
    by apply strip_id. }
  split; (split; [intros <-; apply normal_form|]).
  - exact (Hfix RE_NUM RE_NUM_needs_digit).
  - exact (Hfix main2.RE_NUM main2_RE_NUM_needs_digit).
Qed.

Lemma clean_text_fixed_points_witness :
  Spec.digit_free (db := hangul_db) (u "광주 한옥 정원")
  /\ (clean_text_for_kw (db := hangul_db) (VStr (u "광주 한옥 정원"))
      = u "광주 한옥 정원"
      <-> Spec.punct_free (db := hangul_db) (u "광주 한옥 정원")
          /\ Spec.single_spaced (db := hangul_db) (u "광주 한옥 정원")
          /\ Spec2.stripped (db := hangul_db) (u "광주 한옥 정원"))
  /\ (main2.clean_text (db := hangul_db) (VStr (u "광주 한옥 정원"))
      = u "광주 한옥 정원"
      <-> Spec.punct_free (db := hangul_db) (u "광주 한옥 정원")
          /\ Spec.single_spaced (db := hangul_db) (u "광주 한옥 정원")
          /\ Spec2.stripped (db := hangul_db) (u "광주 한옥 정원")).
Proof.
  assert (Hd : Spec.digit_free (db := hangul_db) (u "광주 한옥 정원"))
    by (vm_compute; repeat constructor).
  split; [exact Hd|].
  exact (clean_text_fixed_points (db := hangul_db) _ Hd).
Defined.

(** ** Pooling the rest on the store *)

Lemma dict_get_deref (h : Heap.heap) (counters : dict Heap.ref) (k : str) :
  dict_get (Heap2.deref h counters) k
  = match dict_get counters k with
    | Ok r => Ok (h r)
    | Raise e => Raise e
    end.
Proof.
  induction counters as [|[k' r] counters IH];
    cbn [Heap2.deref List.map dict_get fst snd]; [done|].
  destruct (str_eqb k' k); [done | exact IH].
Qed.

Lemma deref_frame (h h' : Heap.heap) (counters : dict Heap.ref) :
  (forall k r, In (k, r) counters -> h' r = h r) ->
  Heap2.deref h' counters = Heap2.deref h counters.
Proof.
  intros H. unfold Heap2.deref. apply map_ext_in. intros [k r] Hin.
  cbn [fst snd]. f_equal. by apply (H k).
Qed.

Lemma pool_rest_st_run (others : list str) (dist : str)
    (counters : dict Heap.ref) (rest : Heap.ref) (h : Heap.heap) :
  (forall k r, In (k, r) counters -> r <> rest) ->
  let run := Heap2.pool_rest_st others dist counters rest h in
  (forall r, r <> rest -> snd run r = h r)
  /\ pool_rest others dist (Heap2.deref h counters) (h rest)
     = match fst run with
       | Ok _ => Ok (snd run rest)
       | Raise e => Raise e
       end.
Proof.
  intros Hfresh. revert h.
  induction others as [|o others IH]; intros h;
    cbn [Heap2.pool_rest_st pool_rest]; [by split|].
  destruct (negb (str_eqb o dist)); [|apply IH].
  rewrite dict_get_deref. unfold Heap.bind at 1, Heap.lift.
  destruct (dict_get counters o) as [c|e] eqn:Hget; [|by split].
  rewrite bind_Ok. unfold Heap.bind, Heap.counter_iadd.
  set (h1 := fun r' => if Nat.eqb r' rest then iadd (h rest) (h c)
                       else h r').
  assert (Hh1 : forall r, r <> rest -> h1 r = h r).
  { intros r Hr. unfold h1. by rewrite (proj2 (Nat.eqb_neq r rest) Hr). }
  destruct (IH h1) as [IH1 IH2]. split.
  - intros r Hr. rewrite (IH1 r Hr). by apply Hh1.
  - rewrite <- IH2. rewrite (deref_frame h h1).
    + f_equal. unfold h1. by rewrite Nat.eqb_refl.
    + intros k r Hin. apply Hh1. by apply (Hfresh k).
Qed.

(** X19: pooling the rest changes no counter of [counters]: when the
    object of [rest] is none of the objects that [counters] holds, the
    statement [rest = Counter()] and the loop after it leave every other
    object of the store as it was, and their outcome is that of the
    pooling on the values of the counters: the same exception, or the
    pooled counter, which is then the value of [rest]. *)
Theorem pool_rest_frame (dist : str) (counters : dict Heap.ref)
    (rest : Heap.ref) (h : Heap.heap) :
  (forall k r, In (k, r) counters -> r <> rest) ->
  (forall r, r <> rest ->
     snd (Heap2.fresh_rest dist counters rest h) r = h r)
  /\ pool_rest DISTRICTS dist (Heap2.deref h counters) []
     = match fst (Heap2.fresh_rest dist counters rest h) with
       | Ok _ => Ok (snd (Heap2.fresh_rest dist counters rest h) rest)
       | Raise e => Raise e
       end.
Proof.
  intros Hfresh. unfold Heap2.fresh_rest, Heap.bind, Heap2.new_counter.
  set (h0 := fun r => if Nat.eqb r rest then [] else h r).
  assert (Hh0 : forall r, r <> rest -> h0 r = h r).
  { intros r Hr. unfold h0. by rewrite (proj2 (Nat.eqb_neq r rest) Hr). }
  destruct (pool_rest_st_run DISTRICTS dist counters rest h0 Hfresh)
    as [H1 H2].
  split.
  - intros r Hr. rewrite (H1 r Hr). by apply Hh0.
  - rewrite <- H2. rewrite (deref_frame h h0).
    + f_equal. unfold h0. by rewrite Nat.eqb_refl.
    + intros k r Hin. apply Hh0. by apply (Hfresh k).
Qed.

Lemma pool_rest_frame_witness :
  (forall k r, In (k, r) Scenario2.counters -> r <> 5%nat)
  /\ (forall r, r <> 5%nat ->
        snd (Heap2.fresh_rest (u "동구") Scenario2.counters 5%nat
               Scenario2.store) r
        = Scenario2.store r)
  /\ pool_rest DISTRICTS (u "동구")
       (Heap2.deref Scenario2.store Scenario2.counters) []
     = match fst (Heap2.fresh_rest (u "동구") Scenario2.counters 5%nat
                    Scenario2.store) with
       | Ok _ => Ok (snd (Heap2.fresh_rest (u "동구") Scenario2.counters
                            5%nat Scenario2.store) 5%nat)
       | Raise e => Raise e
       end.
Proof.
  assert (Hfresh : forall (k : str) (r : Heap.ref),
            In (k, r) Scenario2.counters -> r <> 5%nat).
  { intros k r Hin. unfold Scenario2.counters in Hin. cbn [In] in Hin.
    destruct Hin as [H|[H|[H|[H|[H|[]]]]]]; inversion H; lia. }
  split; [exact Hfresh|].
  exact (pool_rest_frame (u "동구") Scenario2.counters 5%nat
           Scenario2.store Hfresh).
Defined.
